(** * Ambient sound playback hook: a shallow embedding

    The repository holds three revisions of the React hook
    [useAmbientSounds]:

    - [src/hooks/useAmbientSounds.ts]: one start trigger
      ([canplaythrough]), requests dropped while [isLoading];
    - [unnamed/part_001]: three start triggers guarded by a [started]
      flag, requests still dropped while [isLoading];
    - [unnamed/part_000]: the same three triggers, every asynchronous
      callback gated by the generation counter [playIdRef], a pending
      resource kept in [pendingAudioRef] and the retry timer in
      [loadTimeoutRef].

    The state of the component (React state cells, refs, the audio
    elements it created, [localStorage] and the console) is threaded
    explicitly.  A step of the model is one task of the browser's event
    loop: a call of one of the four callbacks the hook returns, or the
    firing of a listener, timer or promise reaction registered by
    [playSound].  The component re-renders between tasks, so a callback
    reads the React state left by the previous step.

    The browser is kept abstract: it decides which listener fires,
    which timer runs and which [play()] promise settles, and when.  An
    element is audible from the task in which one of its [play()]
    promises resolves until it is paused; the reaction registered with
    [then] runs in that same task.

    Each revision is a module of its own ([Simple], [Retry],
    [Generation]); the initializer and [changeVolume], which have the
    same text in all three, are shared.  The statements are about
    [Generation] unless they say otherwise. *)

From Stdlib Require Import ZArith String Ascii List Lia Bool.
From stdpp Require Import base option list gmap strings.

Local Open Scope string_scope.

(** ** JavaScript numbers, as far as the hook uses them

    A volume is a JS number.  A finite non-zero number is kept in the
    form ECMAScript's [Number::toString] works on: a sign, the decimal
    digits [s] (k of them) and the position [n] of the decimal point,
    standing for [0.s1 s2 ... sk * 10^n].  The two zeros are identified,
    as [===] does. *)

Inductive digit : Set := d0 | d1 | d2 | d3 | d4 | d5 | d6 | d7 | d8 | d9.

Inductive number : Set :=
| NaN
| Infinity (negative : bool)
| Zero
| Finite (negative : bool) (s : list digit) (n : Z).

(** ** The catalog *)

Record AmbientSound := mkSound {
  id : string;
  name : string;
  icon : string;
  audioUrl : string;
  description : string
}.

Definition bird_sound : AmbientSound :=
  mkSound "bird-sound" "Birds" "◦"
    "/sounds/ambients/bird sound.mp3" "Gentle bird chirping".

Definition bird_sound_2 : AmbientSound :=
  mkSound "bird-sound-2" "Forest Birds" "◈"
    "/sounds/ambients/bird sound 2.mp3" "Forest ambience with birds".

Definition bird_sound_3 : AmbientSound :=
  mkSound "bird-sound-3" "Morning Birds" "◐"
    "/sounds/ambients/bird sound 3 (2).mp3" "Morning bird sounds".

Definition rain : AmbientSound :=
  mkSound "rain" "Rain" "●"
    "/sounds/ambients/rain.mp3" "Soft rainfall for focus".

Definition AMBIENT_SOUNDS : list AmbientSound :=
  [ bird_sound; bird_sound_2; bird_sound_3; rain ].

(** ** Audio elements

    Every call of [playSound] that gets past its guard runs
    [new Audio()] once and builds one closure over that element
    ([thisPlayId], [sound], [started]); element and closure are kept in
    one record, addressed by the position of the element in the list of
    all elements created so far.

    - [el_playing]: the element produces sound, that is, a promise
      returned by [play()] has resolved and neither [pause()] nor a
      reset of [src] happened since.
    - [on_canplay], [on_error]: the listener registered with
      [{ once: true }] has not fired yet.  In the first revision
      [on_canplay] is the [canplaythrough] listener.
    - [play_promises]: promises returned by [play()] and not settled.
    - [timer]: the 300ms timer set by this call is scheduled and has
      neither fired nor been cleared.

    [preload] is always ['auto'] and [currentTime] (reset by
    [stopSound] before the element is dropped) has no bearing on any
    of the callbacks; neither is kept. *)

Record Audio := mkAudio {
  el_src : string;
  el_loop : bool;
  el_volume : number;
  el_playing : bool;
  on_canplay : bool;
  on_error : bool;
  play_promises : nat;
  timer : bool;
  thisPlayId : nat;
  sound : AmbientSound;
  started : bool
}.

Definition set_src (u : string) (a : Audio) : Audio :=
  mkAudio u (el_loop a) (el_volume a) (el_playing a) (on_canplay a)
    (on_error a) (play_promises a) (timer a) (thisPlayId a) (sound a)
    (started a).

Definition set_volume (v : number) (a : Audio) : Audio :=
  mkAudio (el_src a) (el_loop a) v (el_playing a) (on_canplay a)
    (on_error a) (play_promises a) (timer a) (thisPlayId a) (sound a)
    (started a).

Definition set_playing (b : bool) (a : Audio) : Audio :=
  mkAudio (el_src a) (el_loop a) (el_volume a) b (on_canplay a)
    (on_error a) (play_promises a) (timer a) (thisPlayId a) (sound a)
    (started a).

Definition set_on_canplay (b : bool) (a : Audio) : Audio :=
  mkAudio (el_src a) (el_loop a) (el_volume a) (el_playing a) b
    (on_error a) (play_promises a) (timer a) (thisPlayId a) (sound a)
    (started a).

Definition set_on_error (b : bool) (a : Audio) : Audio :=
  mkAudio (el_src a) (el_loop a) (el_volume a) (el_playing a)
    (on_canplay a) b (play_promises a) (timer a) (thisPlayId a)
    (sound a) (started a).

Definition set_play_promises (k : nat) (a : Audio) : Audio :=
  mkAudio (el_src a) (el_loop a) (el_volume a) (el_playing a)
    (on_canplay a) (on_error a) k (timer a) (thisPlayId a) (sound a)
    (started a).

Definition set_timer (b : bool) (a : Audio) : Audio :=
  mkAudio (el_src a) (el_loop a) (el_volume a) (el_playing a)
    (on_canplay a) (on_error a) (play_promises a) b (thisPlayId a)
    (sound a) (started a).

Definition set_started (b : bool) (a : Audio) : Audio :=
  mkAudio (el_src a) (el_loop a) (el_volume a) (el_playing a)
    (on_canplay a) (on_error a) (play_promises a) (timer a)
    (thisPlayId a) (sound a) b.

(** [audio.pause()] and [audio.src = '']. *)
Definition pause (a : Audio) : Audio := set_playing false a.
Definition clear_src (a : Audio) : Audio := set_src "" a.

(** [audio.play()]: one more promise to settle. *)
Definition play (a : Audio) : Audio :=
  set_play_promises (S (play_promises a)) a.

(** ** The component

    React state: [isPlaying], [currentSound], [isLoading], [volume].
    Refs: [audioRef], [volumeRef], and in the last revision [playIdRef],
    [pendingAudioRef], [loadTimeoutRef] (a timer is named by the element
    whose [startPlayback] it calls).  The two earlier revisions leave
    the last three at their initial values. *)

Record State := mkState {
  isPlaying : bool;
  currentSound : option AmbientSound;
  isLoading : bool;
  volume : number;
  audioRef : option nat;
  volumeRef : number;
  playIdRef : nat;
  pendingAudioRef : option nat;
  loadTimeoutRef : option nat;
  audios : list Audio;
  localStorage : gmap string string;
  console : list string
}.

Definition setIsPlaying (b : bool) (s : State) : State :=
  mkState b (currentSound s) (isLoading s) (volume s) (audioRef s)
    (volumeRef s) (playIdRef s) (pendingAudioRef s) (loadTimeoutRef s)
    (audios s) (localStorage s) (console s).

Definition setCurrentSound (c : option AmbientSound) (s : State) : State :=
  mkState (isPlaying s) c (isLoading s) (volume s) (audioRef s)
    (volumeRef s) (playIdRef s) (pendingAudioRef s) (loadTimeoutRef s)
    (audios s) (localStorage s) (console s).

Definition setIsLoading (b : bool) (s : State) : State :=
  mkState (isPlaying s) (currentSound s) b (volume s) (audioRef s)
    (volumeRef s) (playIdRef s) (pendingAudioRef s) (loadTimeoutRef s)
    (audios s) (localStorage s) (console s).

Definition setVolume (v : number) (s : State) : State :=
  mkState (isPlaying s) (currentSound s) (isLoading s) v (audioRef s)
    (volumeRef s) (playIdRef s) (pendingAudioRef s) (loadTimeoutRef s)
    (audios s) (localStorage s) (console s).

Definition set_audioRef (r : option nat) (s : State) : State :=
  mkState (isPlaying s) (currentSound s) (isLoading s) (volume s) r
    (volumeRef s) (playIdRef s) (pendingAudioRef s) (loadTimeoutRef s)
    (audios s) (localStorage s) (console s).

Definition set_volumeRef (v : number) (s : State) : State :=
  mkState (isPlaying s) (currentSound s) (isLoading s) (volume s)
    (audioRef s) v (playIdRef s) (pendingAudioRef s) (loadTimeoutRef s)
    (audios s) (localStorage s) (console s).

Definition set_playIdRef (g : nat) (s : State) : State :=
  mkState (isPlaying s) (currentSound s) (isLoading s) (volume s)
    (audioRef s) (volumeRef s) g (pendingAudioRef s) (loadTimeoutRef s)
    (audios s) (localStorage s) (console s).

Definition set_pendingAudioRef (r : option nat) (s : State) : State :=
  mkState (isPlaying s) (currentSound s) (isLoading s) (volume s)
    (audioRef s) (volumeRef s) (playIdRef s) r (loadTimeoutRef s)
    (audios s) (localStorage s) (console s).

Definition set_loadTimeoutRef (r : option nat) (s : State) : State :=
  mkState (isPlaying s) (currentSound s) (isLoading s) (volume s)
    (audioRef s) (volumeRef s) (playIdRef s) (pendingAudioRef s) r
    (audios s) (localStorage s) (console s).

Definition set_audios (l : list Audio) (s : State) : State :=
  mkState (isPlaying s) (currentSound s) (isLoading s) (volume s)
    (audioRef s) (volumeRef s) (playIdRef s) (pendingAudioRef s)
    (loadTimeoutRef s) l (localStorage s) (console s).

Definition set_localStorage (m : gmap string string) (s : State) : State :=
  mkState (isPlaying s) (currentSound s) (isLoading s) (volume s)
    (audioRef s) (volumeRef s) (playIdRef s) (pendingAudioRef s)
    (loadTimeoutRef s) (audios s) m (console s).

(** [console.error(msg, arg)] *)
Definition console_error (msg : string) (s : State) : State :=
  mkState (isPlaying s) (currentSound s) (isLoading s) (volume s)
    (audioRef s) (volumeRef s) (playIdRef s) (pendingAudioRef s)
    (loadTimeoutRef s) (audios s) (localStorage s) (console s ++ [msg])%list.

(** Apply [f] to the element [h]. *)
Definition on_audio (f : Audio -> Audio) (h : nat) (s : State) : State :=
  set_audios (alter f h (audios s)) s.

(** [new Audio()] followed by the assignments of [playSound]. *)
Definition new_audio (a : Audio) (s : State) : State :=
  set_audios (audios s ++ [a])%list s.

(** ** [Number.prototype.toString] and [parseFloat]

    [toString] follows Number::toString of ECMAScript (radix 10) on the
    digits [s] and the point position [n].  [parseFloat] skips leading
    white space (the ASCII part of StrWhiteSpace), reads the longest
    prefix that is a StrDecimalLiteral and returns its value; the
    rounding of that value to a double is not modelled, so the result
    is exact on every string [toString] produces. *)

Definition ascii_of_digit (d : digit) : ascii :=
  match d with
  | d0 => "0" | d1 => "1" | d2 => "2" | d3 => "3" | d4 => "4"
  | d5 => "5" | d6 => "6" | d7 => "7" | d8 => "8" | d9 => "9"
  end%char.

Definition digit_of_ascii (c : ascii) : option digit :=
  match c with
  | "0" => Some d0 | "1" => Some d1 | "2" => Some d2 | "3" => Some d3
  | "4" => Some d4 | "5" => Some d5 | "6" => Some d6 | "7" => Some d7
  | "8" => Some d8 | "9" => Some d9 | _ => None
  end%char.

Definition nat_of_digit (d : digit) : nat :=
  match d with
  | d0 => 0 | d1 => 1 | d2 => 2 | d3 => 3 | d4 => 4
  | d5 => 5 | d6 => 6 | d7 => 7 | d8 => 8 | d9 => 9
  end.

Definition digit_of_nat (k : nat) : digit :=
  match k with
  | 0 => d0 | 1 => d1 | 2 => d2 | 3 => d3 | 4 => d4
  | 5 => d5 | 6 => d6 | 7 => d7 | 8 => d8 | _ => d9
  end.

Definition is_d0 (d : digit) : bool :=
  match d with d0 => true | _ => false end.

Fixpoint string_of_digits (ds : list digit) : string :=
  match ds with
  | [] => ""
  | d :: r => String (ascii_of_digit d) (string_of_digits r)
  end.

(** Decimal digits of a natural number, most significant first. *)
Fixpoint digits_of_nat_aux (fuel k : nat) (acc : list digit) : list digit :=
  match fuel with
  | 0 => acc
  | S fuel' =>
      let acc' := digit_of_nat (k mod 10) :: acc in
      if (k / 10 =? 0)%nat then acc' else digits_of_nat_aux fuel' (k / 10) acc'
  end.

Definition digits_of_nat (k : nat) : list digit :=
  digits_of_nat_aux (S k) k [].

Definition nat_of_digits (ds : list digit) : nat :=
  fold_left (fun acc d => 10 * acc + nat_of_digit d) ds 0.

Definition sign_string (negative : bool) : string :=
  if negative then "-" else "".

(** The exponent part [e+N] / [e-N] of the scientific forms. *)
Definition exponent_string (e : Z) : string :=
  "e" ++ (if (e <? 0)%Z then "-" else "+")
      ++ string_of_digits (digits_of_nat (Z.abs_nat e)).

Definition toString (v : number) : string :=
  match v with
  | NaN => "NaN"
  | Zero => "0"
  | Infinity negative => sign_string negative ++ "Infinity"
  | Finite negative s n =>
      let k := Z.of_nat (length s) in
      sign_string negative ++
      if ((k <=? n) && (n <=? 21))%Z then
        string_of_digits (s ++ repeat d0 (Z.to_nat (n - k)))%list
      else if ((0 <? n) && (n <=? 21))%Z then
        string_of_digits (take (Z.to_nat n) s) ++ "."
          ++ string_of_digits (drop (Z.to_nat n) s)
      else if ((-6 <? n) && (n <=? 0))%Z then
        "0." ++ string_of_digits (repeat d0 (Z.to_nat (- n)) ++ s)%list
      else
        match s with
        | [] => "0"
        | [d] => string_of_digits [d] ++ exponent_string (n - 1)
        | d :: r =>
            string_of_digits [d] ++ "." ++ string_of_digits r
              ++ exponent_string (n - 1)
        end
  end.

Definition is_white_space (c : ascii) : bool :=
  match c with
  | "009" | "010" | "011" | "012" | "013" | " " => true
  | _ => false
  end%char.

Fixpoint trim_start (str : string) : string :=
  match str with
  | String c r => if is_white_space c then trim_start r else str
  | EmptyString => str
  end.

(** The longest run of decimal digits at the head of a string, and
    what follows it. *)
Fixpoint span_digits (str : string) : list digit * string :=
  match str with
  | String c r =>
      match digit_of_ascii c with
      | Some d => let '(ds, rest) := span_digits r in (d :: ds, rest)
      | None => ([], str)
      end
  | EmptyString => ([], str)
  end.

Fixpoint strip_zeros (ds : list digit) : list digit :=
  match ds with
  | d :: r => if is_d0 d then strip_zeros r else ds
  | [] => []
  end.

(** The number [0.ds * 10^n] in the form [Finite] expects: no leading
    and no trailing zero digit. *)
Definition of_decimal (negative : bool) (ds : list digit) (n : Z) : number :=
  let lead := strip_zeros ds in
  let s := rev (strip_zeros (rev lead)) in
  match s with
  | [] => Zero
  | _ => Finite negative s (n - Z.of_nat (length ds - length lead))
  end.

(** ExponentPart: [e] or [E], an optional sign, at least one digit;
    anything else is not part of the literal. *)
Definition parse_exponent (str : string) : Z :=
  match str with
  | String c r =>
      if (Ascii.eqb c "e" || Ascii.eqb c "E")%char then
        let '(negative, r') :=
          match r with
          | String "-" r' => (true, r')
          | String "+" r' => (false, r')
          | _ => (false, r)
          end in
        match span_digits r' with
        | ([], _) => 0
        | (ds, _) =>
            let e := Z.of_nat (nat_of_digits ds) in
            if negative then - e else e
        end
      else 0
  | EmptyString => 0
  end%Z.

(** StrUnsignedDecimalLiteral other than [Infinity]: digits, an
    optional fraction, an optional exponent; at least one digit before
    the exponent. *)
Definition decimal_literal (negative : bool) (u : string) : number :=
  let '(ip, r1) := span_digits u in
  let '(fp, r2) :=
    match r1 with
    | String "." r => span_digits r
    | _ => ([], r1)
    end in
  match (ip ++ fp)%list with
  | [] => NaN
  | ds => of_decimal negative ds (Z.of_nat (length ip) + parse_exponent r2)
  end.

Definition parseFloat (str : string) : number :=
  let t := trim_start str in
  let '(negative, u) :=
    match t with
    | String "-" r => (true, r)
    | String "+" r => (false, r)
    | _ => (false, t)
    end in
  if String.prefix "Infinity" u then Infinity negative
  else decimal_literal negative u.

(** The numbers a volume string stands for: every number but [NaN],
    with the digits of a finite one free of leading and trailing
    zeros. *)
Definition canonical (v : number) : bool :=
  match v with
  | NaN => false
  | Infinity _ | Zero => true
  | Finite _ s _ =>
      match s, rev s with
      | d :: _, e :: _ => negb (is_d0 d) && negb (is_d0 e)
      | _, _ => false
      end
  end.

(** ** Initial state

    [useState(() => { const savedVolume = localStorage.getItem(...);
    return savedVolume ? parseFloat(savedVolume) : 0.3; })]:
    [getItem] gives [null] for a missing key, and a string is truthy
    when it is not empty.  The initializer runs on the first render
    only. *)

Definition volume_key : string := "ambientSoundVolume".

Definition default_volume : number := Finite false [d3] 0.

Definition initial_volume (storage : gmap string string) : number :=
  match storage !! volume_key with
  | Some savedVolume =>
      match savedVolume with
      | EmptyString => default_volume
      | _ => parseFloat savedVolume
      end
  | None => default_volume
  end.

Definition useAmbientSounds (storage : gmap string string) : State :=
  let v := initial_volume storage in
  mkState false None false v None v 0 None None [] storage [].

(** [changeVolume]: the same text in the three revisions. *)
Definition changeVolume (newVolume : number) (s : State) : State :=
  let s1 := setVolume newVolume s in
  let s2 := set_volumeRef newVolume s1 in
  let s3 :=
    set_localStorage (<[volume_key := toString newVolume]> (localStorage s2)) s2 in
  match audioRef s3 with
  | Some h => on_audio (set_volume newVolume) h s3
  | None => s3
  end.

(** Messages passed to [console.error]. *)
Definition load_error_message (snd : AmbientSound) : string :=
  "Error loading sound: " ++ audioUrl snd.

(** ** Tasks of the event loop

    The four callbacks returned by the hook, the unmount cleanup, and
    what the browser may run for an element [h]: the [canplay]
    ([canplaythrough]) listener, the [error] listener, the 300ms timer,
    and the settling of one promise returned by [play()].  A task that
    is not enabled (listener already fired, timer cleared, no promise
    outstanding, no such element) leaves the state as it is.

    The browser is not assumed to settle promises in any order, nor to
    reject the promises of an element that was paused: a promise of a
    released element may still resolve, which is the case the last
    revision guards against ("Play succeeded but already cancelled"). *)

Inductive Task :=
| Play (snd : AmbientSound)
| Stop
| Toggle (snd : AmbientSound)
| ChangeVolume (v : number)
| Unmount
| CanPlay (h : nat)
| ErrorEvent (h : nat)
| TimerFired (h : nat)
| PlayResolved (h : nat)
| PlayRejected (h : nat).

(** The tasks the browser starts, as opposed to calls by the UI. *)
Definition is_callback (t : Task) : bool :=
  match t with
  | CanPlay _ | ErrorEvent _ | TimerFired _ | PlayResolved _ | PlayRejected _ => true
  | _ => false
  end.

(** [if (audioRef.current) { audioRef.current.pause();
    audioRef.current.src = ''; audioRef.current = null; }], in all
    three revisions (the later ones wrap [pause()] in [try]). *)
Definition releaseActive (s : State) : State :=
  match audioRef s with
  | Some h => set_audioRef None (on_audio clear_src h (on_audio pause h s))
  | None => s
  end.

(** ** [unnamed/part_000]: the revision with the generation counter *)

Module Generation.

(** [if (loadTimeoutRef.current !== null) { clearTimeout(...); ... = null }] *)
Definition clearLoadTimeout (s : State) : State :=
  match loadTimeoutRef s with
  | Some t => set_loadTimeoutRef None (on_audio (set_timer false) t s)
  | None => s
  end.

(** The same for [pendingAudioRef]. *)
Definition releasePending (s : State) : State :=
  match pendingAudioRef s with
  | Some h => set_pendingAudioRef None (on_audio clear_src h (on_audio pause h s))
  | None => s
  end.

(** The effect cleanup run on unmount. *)
Definition cleanup (s : State) : State :=
  releaseActive (releasePending (clearLoadTimeout
    (set_playIdRef (S (playIdRef s)) s))).

Definition stopSound (s : State) : State :=
  let s := set_playIdRef (S (playIdRef s)) s in
  let s := clearLoadTimeout s in
  let s := releasePending s in
  let s := releaseActive s in
  setIsLoading false (setCurrentSound None (setIsPlaying false s)).

(** [startPlayback] of the closure built for element [h]. *)
Definition startPlayback (h : nat) (s : State) : State :=
  match audios s !! h with
  | Some a =>
      if started a then s
      else if negb (playIdRef s =? thisPlayId a)%nat then s
      else on_audio play h s
  | None => s
  end.

(** The reaction passed to [audio.play().then(...)]. *)
Definition playFulfilled (h : nat) (s : State) : State :=
  match audios s !! h with
  | Some a =>
      if negb (playIdRef s =? thisPlayId a)%nat then on_audio pause h s
      else
        let s := on_audio (set_started true) h s in
        let s := set_audioRef (Some h) s in
        let s := set_pendingAudioRef None s in
        let s := setCurrentSound (Some (sound a)) s in
        let s := setIsPlaying true s in
        let s := setIsLoading false s in
        clearLoadTimeout s
  | None => s
  end.

(** The reaction passed to [.catch(...)]: "Will retry on 'canplay' or
    timeout". *)
Definition playRejected (h : nat) (s : State) : State := s.

Definition handleError (h : nat) (s : State) : State :=
  match audios s !! h with
  | Some a =>
      if negb (playIdRef s =? thisPlayId a)%nat then s
      else setIsLoading false (console_error (load_error_message (sound a)) s)
  | None => s
  end.

(** [playSound].  The calls in the [try] block ([new Audio()], the
    property assignments, [addEventListener], [load()], [setTimeout])
    are taken not to throw, so the [catch] block is not reached. *)
Definition playSound (snd : AmbientSound) (s : State) : State :=
  let thisPlayId := S (playIdRef s) in
  let s := set_playIdRef thisPlayId s in
  let s := setIsLoading true s in
  let s := clearLoadTimeout s in
  let s := releasePending s in
  let s := releaseActive s in
  let h := length (audios s) in
  let audio :=
    mkAudio (audioUrl snd) true (volumeRef s) false true true 0 false
      thisPlayId snd false in
  let s := new_audio audio s in
  let s := set_pendingAudioRef (Some h) s in
  let s := startPlayback h s in
  set_loadTimeoutRef (Some h) (on_audio (set_timer true) h s).

Definition toggleSound (snd : AmbientSound) (s : State) : State :=
  match isPlaying s, currentSound s with
  | true, Some cur =>
      if String.eqb (id cur) (id snd) then stopSound s else playSound snd s
  | _, _ => playSound snd s
  end.

(** One task. *)
Definition step (t : Task) (s : State) : State :=
  match t with
  | Play snd => playSound snd s
  | Stop => stopSound s
  | Toggle snd => toggleSound snd s
  | ChangeVolume v => changeVolume v s
  | Unmount => cleanup s
  | CanPlay h =>
      match audios s !! h with
      | Some a =>
          if on_canplay a
          then startPlayback h (on_audio (set_on_canplay false) h s)
          else s
      | None => s
      end
  | ErrorEvent h =>
      match audios s !! h with
      | Some a =>
          if on_error a
          then handleError h (on_audio (set_on_error false) h s)
          else s
      | None => s
      end
  | TimerFired h =>
      match audios s !! h with
      | Some a =>
          if timer a
          then startPlayback h (on_audio (set_timer false) h s)
          else s
      | None => s
      end
  | PlayResolved h =>
      match audios s !! h with
      | Some a =>
          match play_promises a with
          | S k =>
              playFulfilled h
                (on_audio (fun a => set_playing true (set_play_promises k a)) h s)
          | O => s
          end
      | None => s
      end
  | PlayRejected h =>
      match audios s !! h with
      | Some a =>
          match play_promises a with
          | S k => playRejected h (on_audio (set_play_promises k) h s)
          | O => s
          end
      | None => s
      end
  end.

Definition run (ts : list Task) (s : State) : State :=
  fold_left (fun s t => step t s) ts s.

End Generation.

(** ** [src/hooks/useAmbientSounds.ts]: the first revision

    No generation counter, no pending reference, no timer: an element
    is referenced by [audioRef] only once its [play()] has resolved. *)

Module Simple.

Definition cleanup (s : State) : State := releaseActive s.

Definition stopSound (s : State) : State :=
  setIsLoading false (setCurrentSound None (setIsPlaying false (releaseActive s))).

(** [handleCanPlay], the [canplaythrough] listener: [audio.play()]. *)
Definition handleCanPlay (h : nat) (s : State) : State := on_audio play h s.

Definition playFulfilled (h : nat) (s : State) : State :=
  match audios s !! h with
  | Some a =>
      let s := set_audioRef (Some h) s in
      let s := setCurrentSound (Some (sound a)) s in
      let s := setIsPlaying true s in
      setIsLoading false s
  | None => s
  end.

Definition playRejected (h : nat) (s : State) : State :=
  setIsLoading false (console_error "Error playing sound:" s).

Definition handleError (h : nat) (s : State) : State :=
  match audios s !! h with
  | Some a => setIsLoading false (console_error (load_error_message (sound a)) s)
  | None => s
  end.

Definition playSound (snd : AmbientSound) (s : State) : State :=
  if isLoading s then s
  else
    let s := setIsLoading true s in
    let s := releaseActive s in
    new_audio
      (mkAudio (audioUrl snd) true (volumeRef s) false true true 0 false 0 snd false)
      s.

Definition toggleSound (snd : AmbientSound) (s : State) : State :=
  if isLoading s then s
  else
    match isPlaying s, currentSound s with
    | true, Some cur =>
        if String.eqb (id cur) (id snd) then stopSound s else playSound snd s
    | _, _ => playSound snd s
    end.

Definition step (t : Task) (s : State) : State :=
  match t with
  | Play snd => playSound snd s
  | Stop => stopSound s
  | Toggle snd => toggleSound snd s
  | ChangeVolume v => changeVolume v s
  | Unmount => cleanup s
  | CanPlay h =>
      match audios s !! h with
      | Some a =>
          if on_canplay a
          then handleCanPlay h (on_audio (set_on_canplay false) h s)
          else s
      | None => s
      end
  | ErrorEvent h =>
      match audios s !! h with
      | Some a =>
          if on_error a
          then handleError h (on_audio (set_on_error false) h s)
          else s
      | None => s
      end
  | TimerFired h => s
  | PlayResolved h =>
      match audios s !! h with
      | Some a =>
          match play_promises a with
          | S k =>
              playFulfilled h
                (on_audio (fun a => set_playing true (set_play_promises k a)) h s)
          | O => s
          end
      | None => s
      end
  | PlayRejected h =>
      match audios s !! h with
      | Some a =>
          match play_promises a with
          | S k => playRejected h (on_audio (set_play_promises k) h s)
          | O => s
          end
      | None => s
      end
  end.

Definition run (ts : list Task) (s : State) : State :=
  fold_left (fun s t => step t s) ts s.

End Simple.

(** ** [unnamed/part_001]: the second revision

    [startPlayback] is called by the [canplay] listener, right after
    [load()] and by a 300ms timer that is never cleared; the [started]
    flag is its only guard. *)

Module Retry.

Definition cleanup (s : State) : State := releaseActive s.

Definition stopSound (s : State) : State :=
  setIsLoading false (setCurrentSound None (setIsPlaying false (releaseActive s))).

Definition startPlayback (h : nat) (s : State) : State :=
  match audios s !! h with
  | Some a => if started a then s else on_audio play h s
  | None => s
  end.

Definition playFulfilled (h : nat) (s : State) : State :=
  match audios s !! h with
  | Some a =>
      let s := on_audio (set_started true) h s in
      let s := set_audioRef (Some h) s in
      let s := setCurrentSound (Some (sound a)) s in
      let s := setIsPlaying true s in
      setIsLoading false s
  | None => s
  end.

Definition playRejected (h : nat) (s : State) : State := s.

Definition handleError (h : nat) (s : State) : State :=
  match audios s !! h with
  | Some a => setIsLoading false (console_error (load_error_message (sound a)) s)
  | None => s
  end.

Definition playSound (snd : AmbientSound) (s : State) : State :=
  if isLoading s then s
  else
    let s := setIsLoading true s in
    let s := releaseActive s in
    let h := length (audios s) in
    let s :=
      new_audio
        (mkAudio (audioUrl snd) true (volumeRef s) false true true 0 false 0 snd false)
        s in
    let s := startPlayback h s in
    on_audio (set_timer true) h s.

Definition toggleSound (snd : AmbientSound) (s : State) : State :=
  if isLoading s then s
  else
    match isPlaying s, currentSound s with
    | true, Some cur =>
        if String.eqb (id cur) (id snd) then stopSound s else playSound snd s
    | _, _ => playSound snd s
    end.

Definition step (t : Task) (s : State) : State :=
  match t with
  | Play snd => playSound snd s
  | Stop => stopSound s
  | Toggle snd => toggleSound snd s
  | ChangeVolume v => changeVolume v s
  | Unmount => cleanup s
  | CanPlay h =>
      match audios s !! h with
      | Some a =>
          if on_canplay a
          then startPlayback h (on_audio (set_on_canplay false) h s)
          else s
      | None => s
      end
  | ErrorEvent h =>
      match audios s !! h with
      | Some a =>
          if on_error a
          then handleError h (on_audio (set_on_error false) h s)
          else s
      | None => s
      end
  | TimerFired h =>
      match audios s !! h with
      | Some a =>
          if timer a
          then startPlayback h (on_audio (set_timer false) h s)
          else s
      | None => s
      end
  | PlayResolved h =>
      match audios s !! h with
      | Some a =>
          match play_promises a with
          | S k =>
              playFulfilled h
                (on_audio (fun a => set_playing true (set_play_promises k a)) h s)
          | O => s
          end
      | None => s
      end
  | PlayRejected h =>
      match audios s !! h with
      | Some a =>
          match play_promises a with
          | S k => playRejected h (on_audio (set_play_promises k) h s)
          | O => s
          end
      | None => s
      end
  end.

Definition run (ts : list Task) (s : State) : State :=
  fold_left (fun s t => step t s) ts s.

End Retry.

(** ** Notions used in the statements

    From here on the unqualified names [playSound], [stopSound],
    [toggleSound], [startPlayback], [handleError], [step], [run] are
    those of [Generation], the revision with the generation counter. *)

Import Generation.

Local Close Scope string_scope.
Local Open Scope nat_scope.

(** The states the component can be in: any storage at mount, any
    sequence of tasks after it. *)
Definition reachable (s : State) : Prop :=
  ∃ storage ts, s = Generation.run ts (useAmbientSounds storage).

(** The element [h] produces sound. *)
Definition audible (s : State) (h : nat) : Prop :=
  ∃ a, audios s !! h = Some a ∧ el_playing a = true.


(** The element a callback task belongs to. *)
Definition callback_target (t : Task) : option nat :=
  match t with
  | CanPlay h | ErrorEvent h | TimerFired h | PlayResolved h | PlayRejected h =>
      Some h
  | _ => None
  end.

(** The elements after [clearTimeout], the release of the pending and
    of the active element, as [stopSound], [playSound] and the unmount
    cleanup do them in a row. *)
Definition released (s : State) : list Audio :=
  audios (releaseActive (releasePending (clearLoadTimeout s))).

Definition clear_timer (o : option nat) (l : list Audio) : list Audio :=
  match o with
  | Some t => alter (set_timer false) t l
  | None => l
  end.

(** An update of an element that touches listeners, promises and the
    timer only, and arms no timer. *)
Definition bookkeeping (f : Audio → Audio) : Prop :=
  ∀ a, el_src (f a) = el_src a ∧ el_loop (f a) = el_loop a ∧
       el_volume (f a) = el_volume a ∧ el_playing (f a) = el_playing a ∧
       thisPlayId (f a) = thisPlayId a ∧ sound (f a) = sound a ∧
       started (f a) = started a ∧ (timer (f a) = true → timer a = true).

(** What holds in every reachable state of the last revision:
    generations of elements never exceed the counter, the element of
    the live generation is the one created last, an element that sounds
    or has started for the live generation is the one in [audioRef],
    [audioRef] names a confirmed, sounding element of the live
    generation shown as playing, [pendingAudioRef] names an element of
    the live generation, the only armed timer is the one in
    [loadTimeoutRef], [currentSound] is set only while [isPlaying], and
    [volumeRef] follows [volume]. *)
Record invariant (s : State) : Prop := mkInv {
  inv_gen_le : ∀ h a, audios s !! h = Some a → thisPlayId a ≤ playIdRef s;
  inv_live_last : ∀ h a,
    audios s !! h = Some a → thisPlayId a = playIdRef s → S h = length (audios s);
  inv_audible : ∀ h a,
    audios s !! h = Some a → el_playing a = true → audioRef s = Some h;
  inv_started : ∀ h a,
    audios s !! h = Some a → started a = true → thisPlayId a = playIdRef s →
    audioRef s = Some h;
  inv_active : ∀ h, audioRef s = Some h →
    ∃ a, audios s !! h = Some a ∧ thisPlayId a = playIdRef s ∧
         started a = true ∧ el_playing a = true ∧
         isPlaying s = true ∧ currentSound s = Some (sound a) ∧
         isLoading s = false ∧ pendingAudioRef s = None ∧
         loadTimeoutRef s = None;
  inv_pending : ∀ h, pendingAudioRef s = Some h →
    ∃ a, audios s !! h = Some a ∧ thisPlayId a = playIdRef s;
  inv_timer : ∀ h a,
    audios s !! h = Some a → timer a = true → loadTimeoutRef s = Some h;
  inv_flags : isPlaying s = false → currentSound s = None;
  inv_volume : volumeRef s = volume s
}.


(** What follows in a string is not a digit; is not a decimal point. *)
Definition no_digit_ahead (rest : string) : Prop :=
  match rest with
  | String c _ => digit_of_ascii c = None
  | EmptyString => True
  end.

Definition no_dot_ahead (rest : string) : Prop :=
  match rest with
  | String "." _ => False
  | _ => True
  end.

(** ** Notions used in the further properties *)

(** The effect [useEffect(() => { volumeRef.current = volume; },
    [volume])], run after a render in which [volume] changed. *)
Definition syncVolumeRef (s : State) : State := set_volumeRef (volume s) s.

(** The three revisions, for the statements that hold of each. *)
Inductive Revision := FirstRevision | SecondRevision | LastRevision.

Definition step_of (r : Revision) : Task → State → State :=
  match r with
  | FirstRevision => Simple.step
  | SecondRevision => Retry.step
  | LastRevision => Generation.step
  end.

Definition run_of (r : Revision) (ts : list Task) (s : State) : State :=
  fold_left (λ s t, step_of r t s) ts s.

Definition reachable_in (r : Revision) (s : State) : Prop :=
  ∃ storage ts, s = run_of r ts (useAmbientSounds storage).

(** What [changeVolume] sets, besides the volume of the active
    element. *)
Definition settings (s : State) : number * number * gmap string string :=
  (volume s, volumeRef s, localStorage s).

(** The volume passed to the last [changeVolume] among the tasks [ts],
    [d] when there is none. *)
Fixpoint last_volume (ts : list Task) (d : option number) : option number :=
  match ts with
  | [] => d
  | ChangeVolume v :: r => last_volume r (Some v)
  | _ :: r => last_volume r d
  end.

(** The UI passes only numbers a volume string stands for. *)
Definition volume_tasks_canonical (ts : list Task) : Prop :=
  ∀ v, ChangeVolume v ∈ ts → canonical v = true.

(** The calls that move the generation counter on. *)
Definition invalidates (t : Task) : bool :=
  match t with
  | Play _ | Stop | Toggle _ | Unmount => true
  | _ => false
  end.

(** Nothing is referenced and every closure is stale: the state
    [stopSound] and the unmount cleanup leave. *)
Definition quiescent (s : State) : Prop :=
  audioRef s = None ∧ pendingAudioRef s = None ∧ loadTimeoutRef s = None ∧
  ∀ h a, audios s !! h = Some a → thisPlayId a < playIdRef s.

(** The timer in [loadTimeoutRef] is the one of the pending element. *)
Definition timer_of_pending (s : State) : Prop :=
  ∀ h, loadTimeoutRef s = Some h → pendingAudioRef s = Some h.

(** Every element loops, and an element of the live generation still
    has the source [playSound] gave it. *)
Definition sources_kept (s : State) : Prop :=
  ∀ h a, audios s !! h = Some a →
    el_loop a = true ∧ (thisPlayId a = playIdRef s → el_src a = audioUrl (sound a)).

(** The request for element [h] is the live one and has used up its
    start attempts: the [canplay] listener and the timer have fired,
    and no [play()] promise is outstanding. *)
Definition exhausted (h : nat) (s : State) : Prop :=
  pendingAudioRef s = Some h ∧ isLoading s = true ∧
  ∃ a, audios s !! h = Some a ∧ thisPlayId a = playIdRef s ∧
       on_canplay a = false ∧ timer a = false ∧ play_promises a = 0.

(** * Number formatting and parsing *)

(** ** Digits and digit strings *)

Lemma digit_of_ascii_of_digit d : digit_of_ascii (ascii_of_digit d) = Some d.
Proof. by destruct d. Qed.

Lemma nat_of_digit_of_nat k : k < 10 → nat_of_digit (digit_of_nat k) = k.
Proof. intros H. do 10 (destruct k as [|k]; [ done | ]). lia. Qed.

Lemma append_nil (s : string) : ("" ++ s)%string = s.
Proof. done. Qed.

Lemma append_cons c (a b : string) : (String c a ++ b)%string = String c (a ++ b)%string.
Proof. done. Qed.

Lemma span_digits_stop rest : no_digit_ahead rest → span_digits rest = ([], rest).
Proof. destruct rest as [|c r]; simpl; [ done | by intros -> ]. Qed.

Lemma span_digits_app ds rest :
  no_digit_ahead rest →
  span_digits (string_of_digits ds ++ rest)%string = (ds, rest).
Proof.
  intros H. induction ds as [|d ds IH]; simpl.
  - by apply span_digits_stop.
  - by rewrite digit_of_ascii_of_digit, IH.
Qed.

Lemma span_digits_all ds : span_digits (string_of_digits ds) = (ds, ""%string).
Proof.
  induction ds as [|d ds IH]; simpl; [ done | ].
  by rewrite digit_of_ascii_of_digit, IH.
Qed.

Lemma digits_of_nat_aux_value fuel k acc :
  k < fuel →
  fold_left (λ acc d, 10 * acc + nat_of_digit d) (digits_of_nat_aux fuel k acc) 0 =
  fold_left (λ acc d, 10 * acc + nat_of_digit d) acc k.
Proof.
  revert k acc. induction fuel as [|fuel IH]; intros k acc H; [ lia | ].
  cbn [digits_of_nat_aux]. pose proof (Nat.mod_upper_bound k 10 ltac:(lia)) as Hm.
  pose proof (Nat.div_mod_eq k 10) as Hd.
  destruct (Nat.eqb_spec (k / 10) 0) as [E|E].
  - cbn [fold_left]. rewrite nat_of_digit_of_nat by done. f_equal. lia.
  - rewrite IH by (apply Nat.Div0.div_lt_upper_bound; lia).
    cbn [fold_left]. rewrite nat_of_digit_of_nat by done. f_equal. lia.
Qed.

Lemma nat_of_digits_of_nat k : nat_of_digits (digits_of_nat k) = k.
Proof. unfold nat_of_digits, digits_of_nat. by rewrite digits_of_nat_aux_value by lia. Qed.

Lemma digits_of_nat_aux_nonempty fuel k acc :
  (0 < fuel ∨ acc ≠ []) → digits_of_nat_aux fuel k acc ≠ [].
Proof.
  revert k acc. induction fuel as [|fuel IH]; intros k acc H;
    cbn [digits_of_nat_aux].
  - destruct H; [ lia | done ].
  - destruct (k / 10 =? 0); [ done | ]. apply IH. by right.
Qed.

Lemma parse_exponent_string e : parse_exponent (exponent_string e) = e.
Proof.
  unfold exponent_string. rewrite append_cons, append_nil. simpl.
  pose proof (digits_of_nat_aux_nonempty (S (Z.abs_nat e)) (Z.abs_nat e) []
                ltac:(left; lia)) as Hne.
  fold (digits_of_nat (Z.abs_nat e)) in Hne.
  destruct (Z.ltb_spec e 0); rewrite append_cons, append_nil; simpl;
    rewrite span_digits_all.
  all: destruct (digits_of_nat (Z.abs_nat e)) as [|d ds] eqn:Ed; [ done | ].
  all: rewrite <- Ed, nat_of_digits_of_nat; lia.
Qed.

Lemma strip_zeros_repeat k ds : strip_zeros (repeat d0 k ++ ds) = strip_zeros ds.
Proof. induction k as [|k IH]; simpl; done. Qed.

(** ** Every output format of [toString] is read back *)

Lemma canonical_digits neg s n :
  canonical (Finite neg s n) = true →
  ∃ d r e q, s = d :: r ∧ rev s = e :: q ∧ is_d0 d = false ∧ is_d0 e = false.
Proof.
  unfold canonical. destruct s as [|d r]; [ done | ].
  destruct (rev (d :: r)) as [|e q]; [ done | ].
  intros [H1 H2]%andb_prop. exists d, r, e, q.
  by destruct (is_d0 d), (is_d0 e).
Qed.

(** [of_decimal] on digits that only need zeros removed at both ends. *)
Lemma of_decimal_padded neg s n lead trail m :
  canonical (Finite neg s n) = true →
  (m - Z.of_nat lead = n)%Z →
  of_decimal neg (repeat d0 lead ++ s ++ repeat d0 trail) m = Finite neg s n.
Proof.
  intros (d & r & e & q & Hs & Hr & Hd & He)%canonical_digits Hm.
  unfold of_decimal. rewrite strip_zeros_repeat.
  assert (H1 : strip_zeros (s ++ repeat d0 trail) = s ++ repeat d0 trail).
  { rewrite Hs. simpl. by rewrite Hd. }
  rewrite H1, rev_app_distr.
  assert (H2 : rev (repeat d0 trail) = repeat d0 trail).
  { clear. induction trail as [|k IH]; simpl; [ done | ].
    rewrite IH. clear. induction k; simpl; [ done | by f_equal ]. }
  rewrite H2, strip_zeros_repeat, Hr. simpl. rewrite He. rewrite <- Hr, rev_involutive.
  rewrite Hs at 1. rewrite !length_app, repeat_length. f_equal. lia.
Qed.

Lemma of_decimal_leading neg s n lead m :
  canonical (Finite neg s n) = true →
  (m - Z.of_nat lead = n)%Z →
  of_decimal neg (repeat d0 lead ++ s) m = Finite neg s n.
Proof.
  intros Hc Hm. rewrite <- (app_nil_r s) at 1.
  by apply (of_decimal_padded neg s n lead 0).
Qed.

Lemma parseFloat_digit_head neg d rest :
  parseFloat (sign_string neg ++ String (ascii_of_digit d) rest) =
  decimal_literal neg (String (ascii_of_digit d) rest).
Proof. by destruct neg, d. Qed.

Lemma parseFloat_signed neg d ds rest :
  parseFloat (sign_string neg ++ (string_of_digits (d :: ds) ++ rest)) =
  decimal_literal neg (string_of_digits (d :: ds) ++ rest).
Proof. apply parseFloat_digit_head. Qed.

Lemma append_nil_r (s : string) : (s ++ "")%string = s.
Proof. induction s as [|c s IH]; [ done | by rewrite append_cons, IH ]. Qed.

Lemma decimal_literal_integer neg ip rest :
  no_digit_ahead rest → no_dot_ahead rest →
  decimal_literal neg (string_of_digits ip ++ rest) =
  match ip with
  | [] => NaN
  | _ => of_decimal neg ip (Z.of_nat (length ip) + parse_exponent rest)
  end.
Proof.
  intros H1 H2. unfold decimal_literal. rewrite span_digits_app by done.
  assert (E : match rest with
              | String "." r => span_digits r
              | _ => ([], rest)
              end = ([], rest)).
  { destruct rest as [|c r]; [ done | ].
    destruct c as [[] [] [] [] [] [] [] []]; done. }
  rewrite E, app_nil_r. by destruct ip.
Qed.

Lemma decimal_literal_fraction neg ip fp rest :
  no_digit_ahead rest →
  decimal_literal neg (string_of_digits ip ++ String "." (string_of_digits fp ++ rest)) =
  match ip ++ fp with
  | [] => NaN
  | ds => of_decimal neg ds (Z.of_nat (length ip) + parse_exponent rest)
  end.
Proof.
  intros H. unfold decimal_literal.
  rewrite span_digits_app by done. by rewrite span_digits_app.
Qed.

Lemma roundtrip_integer neg d r n :
  canonical (Finite neg (d :: r) n) = true →
  (Z.of_nat (length (d :: r)) ≤ n)%Z →
  parseFloat
    (sign_string neg ++
     string_of_digits ((d :: r) ++ repeat d0 (Z.to_nat (n - Z.of_nat (length (d :: r))))))
  = Finite neg (d :: r) n.
Proof.
  intros Hc Hk.
  rewrite <- (append_nil_r (string_of_digits _)).
  rewrite <- app_comm_cons, parseFloat_signed.
  rewrite decimal_literal_integer by done. cbv iota.
  apply (of_decimal_padded neg (d :: r) n 0); [ done | ].
  rewrite app_comm_cons, length_app, repeat_length.
  change (parse_exponent "") with 0%Z. lia.
Qed.

Lemma roundtrip_fraction neg d r n :
  canonical (Finite neg (d :: r) n) = true →
  (0 < n < Z.of_nat (length (d :: r)))%Z →
  parseFloat
    (sign_string neg ++
     string_of_digits (take (Z.to_nat n) (d :: r)) ++ "." ++
     string_of_digits (drop (Z.to_nat n) (d :: r)))
  = Finite neg (d :: r) n.
Proof.
  intros Hc Hn.
  destruct (Z.to_nat n) as [|m] eqn:Em; [ lia | ].
  rewrite firstn_cons. rewrite <- (append_nil_r (string_of_digits (drop _ _))).
  rewrite parseFloat_signed.
  change ("." ++ ?x)%string with (String "." x).
  rewrite decimal_literal_fraction by done.
  rewrite <- firstn_cons, take_drop. cbv iota.
  apply (of_decimal_leading neg (d :: r) n 0); [ done | ].
  rewrite length_take. change (parse_exponent "") with 0%Z. lia.
Qed.

Lemma roundtrip_small neg d r n :
  canonical (Finite neg (d :: r) n) = true →
  (n ≤ 0)%Z →
  parseFloat
    (sign_string neg ++
     "0." ++ string_of_digits (repeat d0 (Z.to_nat (- n)) ++ d :: r))
  = Finite neg (d :: r) n.
Proof.
  intros Hc Hn.
  change ("0." ++ ?x)%string with (string_of_digits [d0] ++ String "." x)%string.
  rewrite <- (append_nil_r (string_of_digits (_ ++ _))).
  rewrite (parseFloat_signed neg d0 []).
  rewrite decimal_literal_fraction by done.
  change ([d0] ++ ?x) with (d0 :: x). cbv iota.
  apply (of_decimal_leading neg (d :: r) n (S (Z.to_nat (- n)))); [ done | ].
  change (parse_exponent "") with 0%Z. simpl length. lia.
Qed.

Lemma roundtrip_exponent neg d r n :
  canonical (Finite neg (d :: r) n) = true →
  parseFloat
    (sign_string neg ++
     match d :: r with
     | [] => "0"
     | [d] => string_of_digits [d] ++ exponent_string (n - 1)
     | d :: r =>
         string_of_digits [d] ++ "." ++ string_of_digits r
           ++ exponent_string (n - 1)
     end)
  = Finite neg (d :: r) n.
Proof.
  intros Hc. destruct r as [|d' r].
  - rewrite parseFloat_signed.
    rewrite decimal_literal_integer by done. cbv iota.
    rewrite parse_exponent_string.
    apply (of_decimal_leading neg [d] n 0); [ done | ]. simpl length. lia.
  - rewrite parseFloat_signed.
    change ("." ++ ?x)%string with (String "." x).
    rewrite decimal_literal_fraction by done.
    change ([d] ++ ?x) with (d :: x). cbv iota.
    rewrite parse_exponent_string.
    apply (of_decimal_leading neg (d :: d' :: r) n 0); [ done | ]. simpl length. lia.
Qed.

Lemma parseFloat_toString v : canonical v = true → parseFloat (toString v) = v.
Proof.
  destruct v as [ | neg | | neg s n ]; [ done | by destruct neg | done | ].
  intros Hc. pose proof Hc as (d & r & e & q & -> & Hr & Hd & He)%canonical_digits.
  unfold toString. cbv zeta.
  destruct (Z.leb_spec (Z.of_nat (length (d :: r))) n) as [Hk|Hk];
    destruct (Z.leb_spec n 21) as [H21|H21];
    destruct (Z.ltb_spec 0 n) as [H0|H0];
    destruct (Z.ltb_spec (-6) n) as [H6|H6];
    destruct (Z.leb_spec n 0) as [Hn|Hn]; simpl andb; cbv iota; try lia.
  all: first
    [ by apply roundtrip_integer
    | by apply roundtrip_fraction
    | by apply roundtrip_small
    | by apply roundtrip_exponent ].
Qed.

(** * The revision with the generation counter *)

(** ** Updates of one element *)

Lemma lookup_alter_if {A} (f : A → A) (l : list A) (h i : nat) :
  alter f h l !! i = (if decide (h = i) then f else (λ a, a)) <$> l !! i.
Proof.
  rewrite list_lookup_alter. case_decide; subst; by destruct (l !! i).
Qed.

(** Unfolding of the state and element operations, innermost first,
    so that a projection meets the record it is applied to. *)
Ltac unf :=
  cbv [stopSound cleanup releaseActive releasePending clearLoadTimeout released
    playFulfilled playRejected handleError startPlayback changeVolume
    on_audio new_audio console_error
    setIsPlaying setCurrentSound setIsLoading setVolume set_audioRef
    set_volumeRef set_playIdRef set_pendingAudioRef set_loadTimeoutRef
    set_audios set_localStorage
    isPlaying currentSound isLoading volume audioRef volumeRef playIdRef
    pendingAudioRef loadTimeoutRef audios localStorage console] in *.

Ltac audio_unf :=
  cbv [pause clear_src play set_src set_volume set_playing set_on_canplay
    set_on_error set_play_promises set_timer set_started
    el_src el_loop el_volume el_playing on_canplay on_error play_promises
    timer thisPlayId sound started] in *.

Lemma invariant_init storage : invariant (useAmbientSounds storage).
Proof. split; simpl; try done; intros h a H; by rewrite lookup_nil in H. Qed.

(** ** Normal forms of [stopSound], the cleanup and [playSound] *)

Lemma length_released s : length (released s) = length (audios s).
Proof.
  destruct s as [ip cs il v ar vr g pr lt l ls c]. unf.
  destruct lt, pr, ar; by rewrite ?length_alter.
Qed.

Lemma released_lookup s h a' :
  released s !! h = Some a' →
  ∃ a, audios s !! h = Some a ∧ thisPlayId a' = thisPlayId a ∧
       sound a' = sound a ∧ started a' = started a ∧
       (el_playing a' = true →
        el_playing a = true ∧ audioRef s ≠ Some h ∧ pendingAudioRef s ≠ Some h) ∧
       (timer a' = true → timer a = true ∧ loadTimeoutRef s ≠ Some h).
Proof.
  destruct s as [ip cs il v ar vr g pr lt l ls c]. unf.
  destruct lt, pr, ar; rewrite ?lookup_alter_if.
  all: destruct (l !! h) as [a|]; [ | done ]; simpl; intros [= <-].
  all: exists a; split; [done|]; destruct a; repeat case_decide; audio_unf.
  all: repeat split; congruence.
Qed.

Lemma stopSound_eq s :
  stopSound s =
  mkState false None false (volume s) None (volumeRef s) (S (playIdRef s))
    None None (released s) (localStorage s) (console s).
Proof. destruct s as [ip cs il v ar vr g pr lt l ls c]. unf. by destruct lt, pr, ar. Qed.

Lemma cleanup_eq s :
  cleanup s =
  mkState (isPlaying s) (currentSound s) (isLoading s) (volume s) None
    (volumeRef s) (S (playIdRef s)) None None (released s) (localStorage s)
    (console s).
Proof. destruct s as [ip cs il v ar vr g pr lt l ls c]. unf. by destruct lt, pr, ar. Qed.

Lemma alter_snoc {A} (f : A → A) (l : list A) (x : A) (n : nat) :
  n = length l → alter f n (l ++ [x]) = l ++ [f x].
Proof.
  intros ->. rewrite <- (Nat.add_0_r (length l)). by rewrite alter_app_r.
Qed.

Lemma playSound_eq snd s :
  playSound snd s =
  mkState (isPlaying s) (currentSound s) true (volume s) None (volumeRef s)
    (S (playIdRef s)) (Some (length (audios s))) (Some (length (audios s)))
    (released s ++
      [mkAudio (audioUrl snd) true (volumeRef s) false true true 1 true
         (S (playIdRef s)) snd false])
    (localStorage s) (console s).
Proof.
  destruct s as [ip cs il v ar vr g pr lt l ls c].
  cbv [playSound]. cbv zeta.
  destruct lt, pr, ar; unf.
  all: rewrite list_lookup_middle by (by rewrite ?length_alter).
  all: cbv [started thisPlayId]; rewrite Nat.eqb_refl; cbv [negb].
  all: rewrite !alter_snoc by (by rewrite ?length_alter).
  all: by rewrite ?length_alter.
Qed.

(** ** Every task keeps the invariant *)

(** After a release of everything, under a newer generation. *)
Lemma invariant_quiet s g' ip cs il :
  invariant s → playIdRef s < g' → (ip = false → cs = None) →
  invariant (mkState ip cs il (volume s) None (volumeRef s) g' None None
               (released s) (localStorage s) (console s)).
Proof.
  intros [I1 I2 I3 I4 I5 I6 IT I7 I8] Hg Hf. split; simpl; try done.
  - intros h a' (a & E & Hid & _)%released_lookup. specialize (I1 _ _ E). lia.
  - intros h a' (a & E & Hid & _)%released_lookup. specialize (I1 _ _ E). lia.
  - intros h a' (a & E & _ & _ & _ & Hp & _)%released_lookup Hpl.
    destruct (Hp Hpl) as (Hpa & Hne & _). by specialize (I3 _ _ E Hpa).
  - intros h a' (a & E & Hid & _)%released_lookup. specialize (I1 _ _ E). lia.
  - intros h a' (a & E & _ & _ & _ & _ & Ht)%released_lookup Htm.
    destruct (Ht Htm) as (Hta & Hne). by specialize (IT _ _ E Hta).
Qed.

Lemma invariant_stopSound s : invariant s → invariant (stopSound s).
Proof. intros I. rewrite stopSound_eq. apply invariant_quiet; [done | lia | done]. Qed.

Lemma invariant_cleanup s : invariant s → invariant (cleanup s).
Proof.
  intros I. rewrite cleanup_eq. apply invariant_quiet; [done | lia | apply I].
Qed.

Lemma invariant_playSound snd s : invariant s → invariant (playSound snd s).
Proof.
  intros I. rewrite playSound_eq.
  pose proof (invariant_quiet s (S (playIdRef s)) (isPlaying s) (currentSound s)
                true I (Nat.lt_succ_diag_r _) (inv_flags _ I)) as [Q1 Q2 Q3 Q4 _ _ QT Q7 Q8].
  simpl in *.
  assert (L : ∀ h a (P : Prop),
    (released s ++ [mkAudio (audioUrl snd) true (volumeRef s) false true true 1
       true (S (playIdRef s)) snd false]) !! h = Some a →
    (released s !! h = Some a → P) →
    (h = length (audios s) → a = mkAudio (audioUrl snd) true (volumeRef s) false
       true true 1 true (S (playIdRef s)) snd false → P) → P).
  { intros h a P [H | [H1 H2]]%lookup_app_Some Ha Hb; [by apply Ha|].
    rewrite length_released in *.
    destruct (h - length (audios s)) as [|k] eqn:Ek; simpl in H2; [|by rewrite lookup_nil in H2].
    injection H2 as <-. apply Hb; [lia | done]. }
  split; simpl; try done.
  - intros h a H. apply (L _ _ _ H); [apply Q1 | by intros _ ->].
  - intros h a H Hg. rewrite length_app, length_released. simpl.
    apply (L _ _ _ H); [ intros E; specialize (Q1 _ _ E) | intros -> _; lia ].
    pose proof (released_lookup _ _ _ E) as (a0 & E0 & Hid & _).
    pose proof (inv_gen_le _ I _ _ E0). lia.
  - intros h a H. apply (L _ _ _ H); [apply Q3 | by intros _ ->].
  - intros h a H. apply (L _ _ _ H); [apply Q4 | by intros _ ->].
  - intros h [= <-]. eexists. split.
    + rewrite lookup_app_r, length_released, Nat.sub_diag
        by (rewrite length_released; lia). done.
    + done.
  - intros h a H. apply (L _ _ _ H); [ | by intros -> _ ].
    intros E Ht. by specialize (QT _ _ E Ht).
Qed.

(** An update of one element that keeps its closure, whether it
    sounds, and arms no timer. *)
Lemma invariant_on_audio f h s :
  invariant s →
  (∀ a, audios s !! h = Some a →
     thisPlayId (f a) = thisPlayId a ∧ sound (f a) = sound a ∧
     started (f a) = started a ∧ el_playing (f a) = el_playing a ∧
     (timer (f a) = true → timer a = true)) →
  invariant (on_audio f h s).
Proof.
  intros [I1 I2 I3 I4 I5 I6 IT I7 I8] Hf.
  destruct s as [ip cs il v ar vr g pr lt l ls c]. unf.
  assert (L : ∀ i a', alter f h l !! i = Some a' →
    ∃ a, l !! i = Some a ∧ thisPlayId a' = thisPlayId a ∧ sound a' = sound a ∧
         started a' = started a ∧ el_playing a' = el_playing a ∧
         (timer a' = true → timer a = true)).
  { intros i a'. rewrite lookup_alter_if. destruct (l !! i) as [a|] eqn:E; [|done].
    simpl. intros [= <-]. exists a. split; [done|].
    case_decide; [subst; by apply Hf | done]. }
  split; simpl; try done.
  - intros i a' (a & E & -> & _)%L. eauto.
  - intros i a' (a & E & -> & _)%L. rewrite length_alter. eauto.
  - intros i a' (a & E & _ & _ & _ & -> & _)%L. eauto.
  - intros i a' (a & E & -> & _ & -> & _)%L. eauto.
  - intros i (a & E & Ha)%I5. rewrite lookup_alter_if, E. simpl.
    eexists; split; [done|]. case_decide; [ subst | done ].
    destruct (Hf _ E) as (-> & -> & -> & -> & _). done.
  - intros i (a & E & Ha)%I6. rewrite lookup_alter_if, E. simpl.
    eexists; split; [done|]. case_decide; [ subst | done ].
    destruct (Hf _ E) as (-> & _). done.
  - intros i a' (a & E & _ & _ & _ & _ & Ht)%L Htm. eauto.
Qed.

Lemma invariant_setIsLoading_false s :
  invariant s → invariant (setIsLoading false s).
Proof.
  intros [I1 I2 I3 I4 I5 I6 IT I7 I8]. destruct s. split; try done.
  intros i (a & Ha)%I5. exists a. simpl in *. tauto.
Qed.

Lemma invariant_console_error msg s :
  invariant s → invariant (console_error msg s).
Proof. intros [I1 I2 I3 I4 I5 I6 IT I7 I8]. destruct s. by split. Qed.

Lemma invariant_changeVolume v s : invariant s → invariant (changeVolume v s).
Proof.
  intros I. unfold changeVolume. cbv zeta.
  assert (I' : invariant (set_localStorage
     (<[volume_key:=toString v]> (localStorage (set_volumeRef v (setVolume v s))))
     (set_volumeRef v (setVolume v s)))).
  { destruct I as [I1 I2 I3 I4 I5 I6 IT I7 I8]. destruct s. by split. }
  destruct (audioRef _); [ | done ].
  apply invariant_on_audio; [done|]. by intros [].
Qed.

Ltac quiet_updates :=
  repeat first
    [ assumption
    | apply invariant_setIsLoading_false
    | apply invariant_console_error
    | apply invariant_on_audio; [ | by intros [] ] ].

Lemma invariant_startPlayback h s : invariant s → invariant (startPlayback h s).
Proof.
  intros I. unfold startPlayback.
  destruct (audios s !! h) as [a|]; [ | done ].
  destruct (started a); [ done | ]. destruct (negb _); quiet_updates.
Qed.

Lemma invariant_handleError h s : invariant s → invariant (handleError h s).
Proof.
  intros I. unfold handleError.
  destruct (audios s !! h) as [a|]; [ | done ]. destruct (negb _); quiet_updates.
Qed.

Lemma clear_timer_lookup o l i :
  clear_timer o l !! i =
  (if decide (o = Some i) then set_timer false else (λ a, a)) <$> l !! i.
Proof.
  destruct o as [t|]; simpl.
  - rewrite lookup_alter_if. repeat case_decide; congruence.
  - by destruct (l !! i).
Qed.

Lemma length_clear_timer o l : length (clear_timer o l) = length l.
Proof. destruct o; simpl; by rewrite ?length_alter. Qed.

(** ** The reaction to a resolved [play()] promise *)

Lemma playFulfilled_stale h s a :
  audios s !! h = Some a → thisPlayId a ≠ playIdRef s →
  playFulfilled h s = on_audio pause h s.
Proof.
  intros E Hne. unfold playFulfilled. rewrite E.
  destruct (Nat.eqb_spec (playIdRef s) (thisPlayId a)); [congruence | done].
Qed.

Lemma playFulfilled_live h s a :
  audios s !! h = Some a → thisPlayId a = playIdRef s →
  playFulfilled h s =
  mkState true (Some (sound a)) false (volume s) (Some h) (volumeRef s)
    (playIdRef s) None None
    (clear_timer (loadTimeoutRef s) (alter (set_started true) h (audios s)))
    (localStorage s) (console s).
Proof.
  intros E Hg. unfold playFulfilled. rewrite E, Hg, Nat.eqb_refl. simpl negb. cbv iota.
  destruct s as [ip cs il v ar vr g pr lt l ls c]. unf. by destruct lt.
Qed.

Lemma step_PlayResolved h s a k :
  audios s !! h = Some a → play_promises a = S k →
  step (PlayResolved h) s =
  playFulfilled h (on_audio (λ a, set_playing true (set_play_promises k a)) h s).
Proof. intros E Ek. simpl. by rewrite E, Ek. Qed.

Lemma on_audio_lookup f h s i :
  audios (on_audio f h s) !! i =
  (if decide (h = i) then f else (λ a, a)) <$> audios s !! i.
Proof. destruct s. apply lookup_alter_if. Qed.

Lemma on_audio_compose f g h s :
  on_audio g h (on_audio f h s) = on_audio (g ∘ f) h s.
Proof. destruct s. unf. f_equal. apply list_alter_alter_eq. Qed.

Lemma invariant_PlayResolved h s : invariant s → invariant (step (PlayResolved h) s).
Proof.
  intros I. pose proof I as [I1 I2 I3 I4 I5 I6 IT I7 I8].
  destruct (audios s !! h) as [a|] eqn:E; [ | by simpl; rewrite E ].
  destruct (play_promises a) as [|k] eqn:Ek; [ by simpl; rewrite E, Ek | ].
  rewrite (step_PlayResolved _ _ _ _ E Ek).
  set (f := λ a, set_playing true (set_play_promises k a)).
  assert (E1 : audios (on_audio f h s) !! h = Some (f a)).
  { rewrite on_audio_lookup, E. simpl. by rewrite decide_True. }
  destruct (decide (thisPlayId a = playIdRef s)) as [Hg|Hg].
  - rewrite (playFulfilled_live _ _ _ E1) by (by destruct s).
    assert (Hlast : ∀ i a0, audios s !! i = Some a0 → thisPlayId a0 = playIdRef s → i = h).
    { intros i a0 Hi Hi'. pose proof (I2 _ _ Hi Hi'). pose proof (I2 _ _ E Hg). lia. }
    destruct s as [ip cs il v ar vr g pr lt l ls c]. simpl in *.
    assert (L : ∀ i a', clear_timer lt (alter (set_started true) h (alter f h l)) !! i = Some a' →
      ∃ a0, l !! i = Some a0 ∧ thisPlayId a' = thisPlayId a0 ∧
            sound a' = sound a0 ∧
            (if decide (h = i) then started a' = true ∧ el_playing a' = true
             else started a' = started a0 ∧ el_playing a' = el_playing a0) ∧
            (timer a' = true → timer a0 = true ∧ lt ≠ Some i)).
    { intros i a'. rewrite clear_timer_lookup, !lookup_alter_if.
      destruct (l !! i) as [a0|]; [ | done ]; simpl; intros [= <-].
      exists a0; split; [done|]; destruct a0; repeat case_decide; done. }
    split; simpl.
    + intros i a' (a0 & E0 & -> & _)%L. eauto.
    + intros i a' (a0 & E0 & -> & _)%L.
      rewrite length_clear_timer, !length_alter. eauto.
    + intros i a' (a0 & E0 & _ & _ & Hc & _)%L Hp. case_decide; [congruence|].
      destruct Hc as [_ Hc]. rewrite Hc in Hp.
      destruct (I5 _ (I3 _ _ E0 Hp)) as (a1 & E1' & Hg1 & _).
      f_equal. symmetry. eauto.
    + intros i a' (a0 & E0 & -> & _)%L _ Hi. f_equal. symmetry. eauto.
    + intros i [= <-]. rewrite clear_timer_lookup, !lookup_alter_if, E. simpl.
      rewrite !(decide_True (P := h = h)) by done.
      eexists; split; [done|]. destruct a. by case_decide.
    + done.
    + intros i a' (a0 & E0 & _ & _ & _ & Ht)%L Htm.
      destruct (Ht Htm) as [Ht0 Hne]. by specialize (IT _ _ E0 Ht0).
    + done.
    + done.
  - rewrite (playFulfilled_stale _ _ _ E1) by (by destruct s).
    assert (Hq : el_playing a = false).
    { destruct (el_playing a) eqn:Hp; [ | done ].
      destruct (I5 _ (I3 _ _ E Hp)) as (a1 & E1' & Hg1 & _). congruence. }
    rewrite on_audio_compose. apply invariant_on_audio; [done|].
    intros a0 E0. assert (a0 = a) as -> by congruence.
    destruct a; simpl in *; by subst.
Qed.

Lemma invariant_step t s : invariant s → invariant (step t s).
Proof.
  intros I. destruct t; simpl.
  - by apply invariant_playSound.
  - by apply invariant_stopSound.
  - unfold toggleSound.
    destruct (isPlaying s), (currentSound s); try by apply invariant_playSound.
    case String.eqb; [by apply invariant_stopSound | by apply invariant_playSound].
  - by apply invariant_changeVolume.
  - by apply invariant_cleanup.
  - destruct (audios s !! h) as [a|]; [ | done ]. destruct (on_canplay a); [ | done ].
    apply invariant_startPlayback. quiet_updates.
  - destruct (audios s !! h) as [a|]; [ | done ]. destruct (on_error a); [ | done ].
    apply invariant_handleError. quiet_updates.
  - destruct (audios s !! h) as [a|]; [ | done ]. destruct (timer a); [ | done ].
    apply invariant_startPlayback. quiet_updates.
  - by apply (invariant_PlayResolved h).
  - destruct (audios s !! h) as [a|]; [ | done ].
    destruct (play_promises a); [ done | ]. unfold playRejected. quiet_updates.
Qed.

Lemma invariant_run ts s : invariant s → invariant (run ts s).
Proof.
  revert s. induction ts as [|t ts IH]; intros s I; [done|].
  simpl. apply IH. by apply invariant_step.
Qed.

(** ** What a callback can do

    A callback either does bookkeeping on its element, or is the
    error listener of the live generation, or a resolved promise of a
    superseded generation (the element is paused), or a resolved
    promise of the live generation (the start transition). *)

Lemma on_audio_id h s : on_audio (λ a, a) h s = s.
Proof. destruct s. unf. f_equal. by apply list_alter_id. Qed.

Lemma startPlayback_cases h s :
  startPlayback h s = s ∨ startPlayback h s = on_audio play h s.
Proof.
  unfold startPlayback. destruct (audios s !! h) as [a|]; [ | by left ].
  destruct (started a); [ by left | ]. destruct (negb _); [ by left | by right ].
Qed.

Lemma callback_cases t h s :
  callback_target t = Some h →
  (∃ f, bookkeeping f ∧ step t s = on_audio f h s)
  ∨ (∃ a, t = ErrorEvent h ∧ audios s !! h = Some a ∧ on_error a = true ∧
          thisPlayId a = playIdRef s ∧
          step t s = setIsLoading false
            (console_error (load_error_message (sound a))
               (on_audio (set_on_error false) h s)))
  ∨ (∃ a k, t = PlayResolved h ∧ audios s !! h = Some a ∧
            play_promises a = S k ∧ thisPlayId a ≠ playIdRef s ∧
            step t s =
            on_audio (λ a, pause (set_playing true (set_play_promises k a))) h s)
  ∨ (∃ a k, t = PlayResolved h ∧ audios s !! h = Some a ∧
            play_promises a = S k ∧ thisPlayId a = playIdRef s ∧
            step t s =
            mkState true (Some (sound a)) false (volume s) (Some h) (volumeRef s)
              (playIdRef s) None None
              (clear_timer (loadTimeoutRef s)
                 (alter (λ a, set_started true (set_playing true (set_play_promises k a)))
                    h (audios s)))
              (localStorage s) (console s)).
Proof.
  assert (Hid : ∀ s', s' = s →
    ∃ f, bookkeeping f ∧ s' = on_audio f h s).
  { intros s' ->. exists (λ a, a). split; [ by intros a | by rewrite on_audio_id ]. }
  destruct t; try done; intros [= ->]; simpl.
  - (* canplay *)
    left. destruct (audios s !! h) as [a|] eqn:E; [ | by apply Hid ].
    destruct (on_canplay a); [ | by apply Hid ].
    destruct (startPlayback_cases h (on_audio (set_on_canplay false) h s)) as [-> | ->].
    + eexists; split; [ | done ]. by intros [].
    + rewrite on_audio_compose. eexists; split; [ | done ]. by intros [].
  - (* error *)
    destruct (audios s !! h) as [a|] eqn:E; [ | left; by apply Hid ].
    destruct (on_error a) eqn:Eo; [ | left; by apply Hid ].
    unfold handleError. rewrite on_audio_lookup, E. simpl. rewrite decide_True by done.
    replace (playIdRef (on_audio (set_on_error false) h s)) with (playIdRef s)
      by (by destruct s).
    replace (thisPlayId (set_on_error false a)) with (thisPlayId a) by (by destruct a).
    replace (sound (set_on_error false a)) with (sound a) by (by destruct a).
    destruct (Nat.eqb_spec (playIdRef s) (thisPlayId a)); simpl.
    + right; left. by exists a.
    + left. eexists; split; [ | done ]. by intros [].
  - (* timer *)
    left. destruct (audios s !! h) as [a|] eqn:E; [ | by apply Hid ].
    destruct (timer a); [ | by apply Hid ].
    destruct (startPlayback_cases h (on_audio (set_timer false) h s)) as [-> | ->].
    + eexists; split; [ | done ]. by intros [].
    + rewrite on_audio_compose. eexists; split; [ | done ]. by intros [].
  - (* play() resolved *)
    destruct (audios s !! h) as [a|] eqn:E; [ | left; by apply Hid ].
    destruct (play_promises a) as [|k] eqn:Ek; [ left; by apply Hid | ].
    set (f := λ a, set_playing true (set_play_promises k a)).
    assert (E1 : audios (on_audio f h s) !! h = Some (f a)).
    { rewrite on_audio_lookup, E. simpl. by rewrite decide_True. }
    right; right. destruct (decide (thisPlayId a = playIdRef s)) as [Hg|Hg].
    + right. exists a, k. repeat (split; [done|]).
      rewrite (playFulfilled_live _ _ _ E1) by (by destruct s, a).
      destruct s, a; simpl. do 2 f_equal. apply list_alter_alter_eq.
    + left. exists a, k. repeat (split; [done|]).
      rewrite (playFulfilled_stale _ _ _ E1) by (by destruct s, a).
      by rewrite on_audio_compose.
  - (* play() rejected *)
    left. destruct (audios s !! h) as [a|] eqn:E; [ | by apply Hid ].
    destruct (play_promises a) as [|k]; [ by apply Hid | ].
    unfold playRejected. eexists; split; [ | done ]. by intros [].
Qed.

(** ** Reachable states *)

Lemma reachable_invariant s : reachable s → invariant s.
Proof. intros (storage & ts & ->). apply invariant_run, invariant_init. Qed.

Lemma invariant_exclusive s i j :
  invariant s → audible s i → audible s j → i = j.
Proof.
  intros I (a & Ea & Ha) (b & Eb & Hb).
  pose proof (inv_audible _ I _ _ Ea Ha). pose proof (inv_audible _ I _ _ Eb Hb).
  congruence.
Qed.

Lemma on_audio_frame f h s :
  isPlaying (on_audio f h s) = isPlaying s ∧
  currentSound (on_audio f h s) = currentSound s ∧
  isLoading (on_audio f h s) = isLoading s ∧
  volume (on_audio f h s) = volume s ∧
  audioRef (on_audio f h s) = audioRef s ∧
  volumeRef (on_audio f h s) = volumeRef s ∧
  playIdRef (on_audio f h s) = playIdRef s ∧
  pendingAudioRef (on_audio f h s) = pendingAudioRef s ∧
  loadTimeoutRef (on_audio f h s) = loadTimeoutRef s ∧
  localStorage (on_audio f h s) = localStorage s ∧
  console (on_audio f h s) = console s.
Proof. by destruct s. Qed.

Lemma on_audio_audible f h s i :
  (∀ a, el_playing (f a) = true → el_playing a = true) →
  audible (on_audio f h s) i → audible s i.
Proof.
  intros Hf (a' & E & Hp). rewrite on_audio_lookup in E.
  destruct (audios s !! i) as [a|] eqn:Ei; [ | done ]. simpl in E.
  injection E as <-. exists a. split; [done|]. case_decide; auto.
Qed.

(** ** What any task does to closures, [audioRef] and [isPlaying] *)

Lemma released_lookup_fwd s h a :
  audios s !! h = Some a →
  ∃ a', released s !! h = Some a' ∧ thisPlayId a' = thisPlayId a ∧
        sound a' = sound a ∧ started a' = started a.
Proof.
  intros E. destruct (released s !! h) as [a'|] eqn:E'.
  - destruct (released_lookup _ _ _ E') as (a0 & E0 & H1 & H2 & H3 & _).
    exists a'. split; [done|]. by assert (a0 = a) as -> by congruence.
  - apply lookup_ge_None_1 in E'. rewrite length_released in E'.
    apply lookup_lt_Some in E. lia.
Qed.

Lemma on_audio_lookup_fwd f h s i a :
  audios s !! i = Some a →
  audios (on_audio f h s) !! i = Some (if decide (h = i) then f a else a).
Proof. intros E. rewrite on_audio_lookup, E. simpl. by case_decide. Qed.

Lemma changeVolume_cases v s :
  let s' := set_localStorage (<[volume_key := toString v]> (localStorage s))
              (set_volumeRef v (setVolume v s)) in
  changeVolume v s =
  match audioRef s with
  | Some h => on_audio (set_volume v) h s'
  | None => s'
  end.
Proof. by destruct s. Qed.

(** What a task does to the closure of an existing element. *)
Lemma step_closure t s h a :
  audios s !! h = Some a →
  ∃ a', audios (step t s) !! h = Some a' ∧ thisPlayId a' = thisPlayId a ∧
        sound a' = sound a ∧ (started a = true → started a' = true).
Proof.
  intros E.
  assert (P : ∀ snd, ∃ a', audios (playSound snd s) !! h = Some a' ∧
    thisPlayId a' = thisPlayId a ∧ sound a' = sound a ∧
    (started a = true → started a' = true)).
  { intros snd. rewrite playSound_eq. simpl.
    destruct (released_lookup_fwd _ _ _ E) as (a' & E' & H1 & H2 & H3).
    exists a'. rewrite lookup_app_l by (by eapply lookup_lt_Some).
    repeat split; try done. congruence. }
  assert (Q : ∃ a', audios (stopSound s) !! h = Some a' ∧
    thisPlayId a' = thisPlayId a ∧ sound a' = sound a ∧
    (started a = true → started a' = true)).
  { rewrite stopSound_eq. simpl.
    destruct (released_lookup_fwd _ _ _ E) as (a' & E' & H1 & H2 & H3).
    exists a'. repeat split; try done. congruence. }
  destruct (callback_target t) as [h'|] eqn:Ht.
  - destruct (callback_cases t h' s Ht)
      as [(f & Hf & ->) | [(a0 & _ & _ & _ & _ & ->) |
          [(a0 & k & _ & _ & _ & _ & ->) | (a0 & k & _ & E0 & _ & _ & ->)]]].
    + eexists. split; [ by apply on_audio_lookup_fwd | ].
      case_decide; [ | done ]. destruct (Hf a) as (_ & _ & _ & _ & -> & -> & -> & _). done.
    + eexists. split; [ by apply (on_audio_lookup_fwd _ _ s) | ].
      case_decide; [ | done ]. by destruct a.
    + eexists. split; [ by apply on_audio_lookup_fwd | ].
      case_decide; [ | done ]. by destruct a.
    + simpl. rewrite clear_timer_lookup, lookup_alter_if, E. simpl.
      eexists. split; [ done | ]. destruct a. by repeat case_decide.
  - destruct t; try discriminate Ht; cbn [step].
    + apply P.
    + apply Q.
    + unfold toggleSound. destruct (isPlaying s), (currentSound s); try apply P.
      case String.eqb; [ apply Q | apply P ].
    + rewrite changeVolume_cases. cbv zeta.
      destruct (audioRef s) as [r|].
      * eexists. split; [ apply on_audio_lookup_fwd; by destruct s | ].
        case_decide; [ | done ]. by destruct a.
      * exists a. by destruct s.
    + rewrite cleanup_eq. simpl.
      destruct (released_lookup_fwd _ _ _ E) as (a' & E' & H1 & H2 & H3).
      exists a'. repeat split; try done. congruence.
Qed.

Lemma startPlayback_started h s a :
  audios s !! h = Some a → started a = true → startPlayback h s = s.
Proof. intros E Hs. unfold startPlayback. by rewrite E, Hs. Qed.

(** Tasks other than a confirmed start of the live generation leave
    [audioRef] alone or clear it. *)
Lemma audioRef_step t s :
  audioRef (step t s) = audioRef s ∨ audioRef (step t s) = None ∨
  ∃ h a, t = PlayResolved h ∧ audios s !! h = Some a ∧
         thisPlayId a = playIdRef s ∧ audioRef (step t s) = Some h.
Proof.
  destruct (callback_target t) as [h'|] eqn:Ht.
  - destruct (callback_cases t h' s Ht)
      as [(f & Hf & ->) | [(a0 & _ & _ & _ & _ & ->) |
          [(a0 & k & _ & _ & _ & _ & ->) | (a0 & k & -> & E0 & _ & Hg & ->)]]].
    + left. by destruct s.
    + left. by destruct s.
    + left. by destruct s.
    + right; right. by exists h', a0.
  - destruct t; try discriminate Ht; cbn [step].
    + right; left. by rewrite playSound_eq.
    + right; left. by rewrite stopSound_eq.
    + right; left. unfold toggleSound.
      destruct (isPlaying s), (currentSound s); rewrite ?playSound_eq; try done.
      case String.eqb; by rewrite ?playSound_eq, ?stopSound_eq.
    + left. rewrite changeVolume_cases. cbv zeta.
      destruct (audioRef s) eqn:Ea; by destruct s.
    + right; left. by rewrite cleanup_eq.
Qed.


Lemma callback_playIdRef t s :
  is_callback t = true → playIdRef (step t s) = playIdRef s.
Proof.
  intros Hc.
  assert (∃ h, callback_target t = Some h) as [h Ht] by (destruct t; by eauto).
  destruct (callback_cases t h s Ht)
    as [(f & Hf & ->) | [(a0 & _ & _ & _ & _ & ->) |
        [(a0 & k & _ & _ & _ & _ & ->) | (a0 & k & _ & E0 & _ & Hg0 & ->)]]];
    by destruct s.
Qed.

(** Callbacks keep the component heading for the sound requested
    last. *)
Section Supersession.

Variables (b : nat) (B : AmbientSound).
Variables (ip : bool) (cs : option AmbientSound).



End Supersession.


Lemma released_src s h a' :
  released s !! h = Some a' →
  audioRef s = Some h ∨ pendingAudioRef s = Some h → el_src a' = "".
Proof.
  destruct s as [ip cs il v ar vr g pr lt l ls c]. unf.
  destruct lt, pr, ar; rewrite ?lookup_alter_if.
  all: destruct (l !! h) as [a|]; [ | done ]; simpl; intros [= <-].
  all: intros [[=]|[=]]; subst; destruct a; repeat case_decide; done.
Qed.

Lemma released_idle s :
  audioRef s = None → pendingAudioRef s = None → loadTimeoutRef s = None →
  released s = audios s.
Proof. destruct s. simpl. by intros -> -> ->. Qed.


(** * The claims *)





(** C2.  A callback (ready event, error event, timer, settled
    [play()] promise) of an element whose captured generation
    [thisPlayId] differs from the live [playIdRef] when it fires leaves
    [isPlaying], [currentSound] and [isLoading] as they are, as well as
    the references and the counter; it makes no element audible, and
    at most one element is audible afterwards. *)
Theorem stale_callback_is_noop s t h a :
  reachable s → callback_target t = Some h →
  audios s !! h = Some a → thisPlayId a ≠ playIdRef s →
  isPlaying (Generation.step t s) = isPlaying s ∧
  currentSound (Generation.step t s) = currentSound s ∧
  isLoading (Generation.step t s) = isLoading s ∧
  audioRef (Generation.step t s) = audioRef s ∧
  pendingAudioRef (Generation.step t s) = pendingAudioRef s ∧
  playIdRef (Generation.step t s) = playIdRef s ∧
  (∀ i, audible (Generation.step t s) i → audible s i) ∧
  (∀ i j, audible (Generation.step t s) i → audible (Generation.step t s) j → i = j).
Proof.
  intros R Ht E Hstale.
  assert (X : ∀ i j, audible (step t s) i → audible (step t s) j → i = j).
  { intros i j. by apply invariant_exclusive, invariant_step, reachable_invariant. }
  destruct (callback_cases t h s Ht)
    as [(f & Hf & Heq) | [(a' & _ & E' & _ & Hg & _) |
        [(a' & k & _ & E' & _ & _ & Heq) | (a' & k & _ & E' & _ & Hg & _)]]];
    try congruence; rewrite Heq in X |- *.
  - destruct (on_audio_frame f h s) as (-> & -> & -> & _ & -> & _ & -> & -> & _).
    repeat (split; [done|]). split; [ | exact X ].
    intros i. apply on_audio_audible. intros a0. by destruct (Hf a0) as (_ & _ & _ & -> & _).
  - match goal with |- context [on_audio ?f h s] =>
      destruct (on_audio_frame f h s) as (-> & -> & -> & _ & -> & _ & -> & -> & _) end.
    repeat (split; [done|]). split; [ | exact X ].
    intros i. apply on_audio_audible. by intros [].
Qed.

Lemma stale_callback_is_noop_witness :
  let s := Generation.run [Play rain; Stop] (useAmbientSounds ∅) in
  (∃ a, audios s !! 0 = Some a ∧ thisPlayId a ≠ playIdRef s) ∧
  isPlaying (Generation.step (PlayResolved 0) s) = isPlaying s ∧
  currentSound (Generation.step (PlayResolved 0) s) = currentSound s.
Proof.
  cbv zeta.
  set (s := Generation.run [Play rain; Stop] (useAmbientSounds ∅)).
  assert (R : reachable s) by (by exists ∅, [Play rain; Stop]).
  assert (E : ∃ a, audios s !! 0 = Some a ∧ thisPlayId a ≠ playIdRef s).
  { eexists. split; [ by vm_compute | ]. by vm_compute. }
  split; [ exact E | ]. destruct E as (a & E & Hg).
  pose proof (stale_callback_is_noop s (PlayResolved 0) 0 a R eq_refl E Hg)
    as (H1 & H2 & _).
  by split.
Defined.

(** C3.  In every reachable state:
    - once the element [h] of the live generation plays
      ([audioRef = h]), the three triggers no longer do anything:
      [startPlayback] returns at its [started] test, the timer task is
      not even enabled, the ready event only consumes its listener,
      and a further resolved [play()] promise re-applies the same
      values, so that only the count of outstanding promises changes;
    - a [play()] promise that resolves for a superseded generation
      pauses its element at once: the element is not audible after
      the task and [audioRef] is untouched;
    - [audioRef] comes to name an element only through a resolved
      [play()] promise of the live generation whose closure had not
      started, and [started] is never reset, so the start transition
      is applied at most once per generation;
    - at most one element is audible. *)
Theorem one_start_per_generation s :
  reachable s →
  (∀ h a, audioRef s = Some h → audios s !! h = Some a →
     Generation.startPlayback h s = s ∧
     Generation.step (TimerFired h) s = s ∧
     (Generation.step (CanPlay h) s = s ∨
      Generation.step (CanPlay h) s = on_audio (set_on_canplay false) h s) ∧
     (∀ k, play_promises a = S k →
        Generation.step (PlayResolved h) s = on_audio (set_play_promises k) h s)) ∧
  (∀ h a, audios s !! h = Some a → thisPlayId a ≠ playIdRef s →
     ¬ audible (Generation.step (PlayResolved h) s) h ∧
     audioRef (Generation.step (PlayResolved h) s) = audioRef s) ∧
  (∀ t h, audioRef s ≠ Some h → audioRef (Generation.step t s) = Some h →
     t = PlayResolved h ∧
     ∃ a, audios s !! h = Some a ∧ thisPlayId a = playIdRef s ∧ started a = false) ∧
  (∀ t h a, audios s !! h = Some a → started a = true →
     ∃ a', audios (Generation.step t s) !! h = Some a' ∧ started a' = true) ∧
  (∀ i j, audible s i → audible s j → i = j).
Proof.
  intros R. pose proof (reachable_invariant _ R) as I.
  split; [ | split; [ | split; [ | split ] ] ].
  - intros h a Hr E.
    destruct (inv_active _ I _ Hr) as (a0 & E0 & Hg & Hs & Hp & Hip & Hcs & Hil & Hpr & Hlt).
    assert (a0 = a) as -> by congruence.
    assert (Htm : timer a = false).
    { destruct (timer a) eqn:Ht; [ | done ].
      pose proof (inv_timer _ I _ _ E Ht). congruence. }
    split; [ by apply (startPlayback_started _ _ a) | ].
    split; [ by simpl; rewrite E, Htm | ].
    split.
    { simpl. rewrite E. destruct (on_canplay a); [ right | by left ].
      apply (startPlayback_started _ _ (set_on_canplay false a)); [ | by destruct a ].
      rewrite (on_audio_lookup_fwd _ _ _ _ _ E). by rewrite decide_True. }
    intros k Ek. rewrite (step_PlayResolved _ _ _ _ E Ek).
    set (f := λ a, set_playing true (set_play_promises k a)).
    assert (E1 : audios (on_audio f h s) !! h = Some (f a)).
    { rewrite (on_audio_lookup_fwd _ _ _ _ _ E). by rewrite decide_True. }
    rewrite (playFulfilled_live _ _ _ E1) by (by destruct s, a).
    destruct s as [ip cs il v ar vr g pr lt l ls c]. simpl in *. subst.
    unfold on_audio, set_audios. simpl. f_equal.
    rewrite list_alter_alter_eq. apply list_alter_ext; [ | done ]. intros x Hx.
    assert (x = a) as -> by congruence. destruct a; simpl in *. by subst.
  - intros h a E Hg.
    assert (Hq : el_playing a = false).
    { destruct (el_playing a) eqn:Hp; [ | done ].
      destruct (inv_active _ I _ (inv_audible _ I _ _ E Hp)) as (a1 & E1 & Hg1 & _).
      congruence. }
    destruct (play_promises a) as [|k] eqn:Ek.
    + simpl. rewrite E, Ek. split; [ | done ].
      intros (a1 & E1 & Hp1). congruence.
    + rewrite (step_PlayResolved _ _ _ _ E Ek).
      set (f := λ a, set_playing true (set_play_promises k a)).
      assert (E1 : audios (on_audio f h s) !! h = Some (f a)).
      { rewrite (on_audio_lookup_fwd _ _ _ _ _ E). by rewrite decide_True. }
      rewrite (playFulfilled_stale _ _ _ E1) by (by destruct s, a).
      rewrite on_audio_compose. split; [ | by destruct s ].
      intros (a1 & Ea1 & Hp1). rewrite (on_audio_lookup_fwd _ _ _ _ _ E) in Ea1.
      rewrite decide_True in Ea1 by done. injection Ea1 as <-. by destruct a.
  - intros t h Hne Hr.
    destruct (audioRef_step t s) as [Heq | [Heq | (h0 & a & -> & E & Hg & Hr0)]];
      [ congruence | congruence | ].
    assert (h0 = h) as -> by congruence. split; [done|].
    exists a. repeat split; try done.
    destruct (started a) eqn:Hs; [ | done ].
    by pose proof (inv_started _ I _ _ E Hs Hg).
  - intros t h a E Hs. destruct (step_closure t s h a E) as (a' & E' & _ & _ & Hst).
    exists a'. auto.
  - intros i j. by apply invariant_exclusive.
Qed.

Lemma one_start_per_generation_witness :
  let s := Generation.run [Play rain; CanPlay 0; PlayResolved 0] (useAmbientSounds ∅) in
  reachable s ∧ audioRef s = Some 0 ∧
  Generation.step (PlayResolved 0) s = on_audio (set_play_promises 0) 0 s ∧
  Generation.step (TimerFired 0) s = s.
Proof.
  cbv zeta.
  set (s := Generation.run [Play rain; CanPlay 0; PlayResolved 0] (useAmbientSounds ∅)).
  assert (R : reachable s) by (by exists ∅, [Play rain; CanPlay 0; PlayResolved 0]).
  split; [ exact R | ]. split; [ by vm_compute | ].
  destruct (one_start_per_generation s R) as (H & _).
  assert (E : ∃ a, audios s !! 0 = Some a ∧ play_promises a = 1).
  { eexists. split; by vm_compute. }
  destruct E as (a & E & Ek).
  destruct (H 0 a ltac:(by vm_compute) E) as (_ & H2 & _ & H4).
  split; [ by apply H4 | exact H2 ].
Defined.





(** C6.  [stop()] from any reachable state: the generation counter
    moves on, so that the closure of every element is stale; no
    element is referenced as active or pending, no timer is
    referenced or armed, no element is audible, and the elements that
    were active or pending have their source cleared; [isPlaying],
    [currentSound] and [isLoading] are reset (the volume is kept).  A
    second [stop()], or a [stop()] in an Idle state with no element
    referenced, changes nothing but the counter.  [stopSound] is a
    total function: there is no state in which it fails. *)
Theorem stopSound_resets s :
  reachable s →
  let s' := Generation.stopSound s in
  (playIdRef s' = S (playIdRef s) ∧
   ∀ h a, audios s' !! h = Some a → thisPlayId a ≠ playIdRef s') ∧
  (audioRef s' = None ∧ pendingAudioRef s' = None ∧ loadTimeoutRef s' = None ∧
   (∀ h a, audios s' !! h = Some a → el_playing a = false ∧ timer a = false) ∧
   (∀ h a, audioRef s = Some h ∨ pendingAudioRef s = Some h →
           audios s' !! h = Some a → el_src a = "")) ∧
  (isPlaying s' = false ∧ currentSound s' = None ∧ isLoading s' = false ∧
   volume s' = volume s) ∧
  Generation.stopSound s' = set_playIdRef (S (playIdRef s')) s' ∧
  (isPlaying s = false → currentSound s = None → isLoading s = false →
   audioRef s = None → pendingAudioRef s = None → loadTimeoutRef s = None →
   s' = set_playIdRef (S (playIdRef s)) s).
Proof.
  intros R s'. pose proof (reachable_invariant _ R) as I.
  pose proof (invariant_stopSound _ I) as I'. fold s' in I'.
  assert (Heq : s' = mkState false None false (volume s) None (volumeRef s)
                       (S (playIdRef s)) None None (released s) (localStorage s)
                       (console s)) by apply stopSound_eq.
  split; [ | split; [ | split; [ | split ] ] ].
  - split; [ by rewrite Heq | ]. intros h a E Hg.
    rewrite Heq in E, Hg. simpl in *.
    destruct (released_lookup _ _ _ E) as (a0 & E0 & Hid & _).
    pose proof (inv_gen_le _ I _ _ E0). lia.
  - repeat (split; [ by rewrite Heq | ]). split.
    + intros h a E. split.
      * destruct (el_playing a) eqn:Hp; [ | done ].
        pose proof (inv_audible _ I' _ _ E Hp) as Hr. by rewrite Heq in Hr.
      * destruct (timer a) eqn:Ht; [ | done ].
        pose proof (inv_timer _ I' _ _ E Ht) as Hr. by rewrite Heq in Hr.
    + intros h a Hr E. rewrite Heq in E. by apply (released_src s h).
  - by rewrite Heq.
  - rewrite (stopSound_eq s'). rewrite released_idle by (by rewrite Heq).
    by rewrite Heq.
  - intros H1 H2 H3 H4 H5 H6. rewrite Heq, released_idle by done.
    destruct s; simpl in *. by subst.
Qed.

Lemma stopSound_resets_witness :
  let s := Generation.run [Play rain; PlayResolved 0] (useAmbientSounds ∅) in
  reachable s ∧ isPlaying s = true ∧
  isPlaying (Generation.stopSound s) = false ∧
  currentSound (Generation.stopSound s) = None ∧
  isLoading (Generation.stopSound s) = false.
Proof.
  cbv zeta. set (s := Generation.run [Play rain; PlayResolved 0] (useAmbientSounds ∅)).
  assert (R : reachable s) by (by exists ∅, [Play rain; PlayResolved 0]).
  split; [ exact R | ]. split; [ by vm_compute | ].
  destruct (stopSound_resets s R) as (_ & _ & (H1 & H2 & H3 & _) & _).
  by repeat split.
Defined.

(** C7 (as amended).  The [error] listener of an element of the live
    generation logs the diagnostic and clears [isLoading], and that is
    all it does: [isPlaying], [currentSound], the volume, the counter,
    the three references and every element (but for the consumed
    listener) are as before.  The failed element is not released: it
    stays in [pendingAudioRef] with its source and its timer.  The
    listener is a total function of the state: nothing is thrown. *)
Theorem load_error_clears_loading s h a :
  audios s !! h = Some a → on_error a = true → thisPlayId a = playIdRef s →
  let s' := Generation.step (ErrorEvent h) s in
  s' = setIsLoading false
         (console_error (load_error_message (sound a))
            (on_audio (set_on_error false) h s)) ∧
  isLoading s' = false ∧
  console s' = (console s ++ [load_error_message (sound a)])%list ∧
  isPlaying s' = isPlaying s ∧ currentSound s' = currentSound s ∧
  volume s' = volume s ∧ playIdRef s' = playIdRef s ∧
  audioRef s' = audioRef s ∧ pendingAudioRef s' = pendingAudioRef s ∧
  loadTimeoutRef s' = loadTimeoutRef s ∧
  (∀ i, audios s' !! i =
        (if decide (h = i) then set_on_error false else (λ x, x)) <$> audios s !! i).
Proof.
  intros E Ho Hg s'.
  assert (Heq : s' = setIsLoading false
         (console_error (load_error_message (sound a))
            (on_audio (set_on_error false) h s))).
  { unfold s'. simpl. rewrite E, Ho. unfold handleError.
    rewrite (on_audio_lookup_fwd _ _ _ _ _ E), decide_True by done.
    replace (playIdRef (on_audio (set_on_error false) h s)) with (playIdRef s)
      by (by destruct s).
    replace (thisPlayId (set_on_error false a)) with (thisPlayId a) by (by destruct a).
    rewrite Hg, Nat.eqb_refl. simpl. by destruct a. }
  split; [ done | ]. rewrite Heq.
  repeat (split; [ by destruct s | ]).
  intros i. destruct s. apply lookup_alter_if.
Qed.

Lemma load_error_clears_loading_witness :
  let s := Generation.run [Play rain] (useAmbientSounds ∅) in
  let s' := Generation.step (ErrorEvent 0) s in
  isLoading s = true ∧ isLoading s' = false ∧ isPlaying s' = false ∧
  currentSound s' = None ∧ pendingAudioRef s' = Some 0.
Proof.
  cbv zeta. set (s := Generation.run [Play rain] (useAmbientSounds ∅)).
  assert (E : ∃ a, audios s !! 0 = Some a ∧ on_error a = true ∧
                   thisPlayId a = playIdRef s).
  { eexists. by vm_compute. }
  destruct E as (a & E & Ho & Hg).
  destruct (load_error_clears_loading s 0 a E Ho Hg)
    as (_ & H1 & _ & H2 & H3 & _ & _ & _ & H4 & _).
  split; [ by vm_compute | ]. split; [ exact H1 | ].
  rewrite H2, H3, H4. by vm_compute.
Defined.

(** C7, the claim as stated fails: when the failed request had
    superseded a playing sound, the component is not Idle after the
    error ([isPlaying] and [currentSound] still show the old sound),
    and the failed element is still pending, with its source and an
    armed timer. *)
Lemma load_error_leaves_request :
  let s :=
    Generation.run [Play rain; PlayResolved 0; Play bird_sound]
      (useAmbientSounds ∅) in
  let s' := Generation.step (ErrorEvent 1) s in
  (∃ a, audios s !! 1 = Some a ∧ on_error a = true ∧ thisPlayId a = playIdRef s) ∧
  isLoading s' = false ∧ isPlaying s' = true ∧ currentSound s' = Some rain ∧
  pendingAudioRef s' = Some 1 ∧ loadTimeoutRef s' = Some 1 ∧
  (∃ a, audios s' !! 1 = Some a ∧ el_src a = audioUrl bird_sound ∧ timer a = true).
Proof.
  cbv zeta. split; [ eexists; by vm_compute | ].
  repeat (split; [ by vm_compute | ]). eexists. by vm_compute.
Qed.


(** No task but [changeVolume] touches the volume or the store: the
    persisted value is read by the initializer of [useAmbientSounds]
    and nowhere else. *)
Lemma volume_step t s :
  (∀ v, t ≠ ChangeVolume v) →
  volume (step t s) = volume s ∧ localStorage (step t s) = localStorage s.
Proof.
  intros Hne. destruct (callback_target t) as [h'|] eqn:Ht.
  - destruct (callback_cases t h' s Ht)
      as [(f & Hf & ->) | [(a0 & _ & _ & _ & _ & ->) |
          [(a0 & k & _ & _ & _ & _ & ->) | (a0 & k & _ & _ & _ & _ & ->)]]];
      by destruct s.
  - destruct t; try discriminate Ht; cbn [step].
    + by rewrite playSound_eq.
    + by rewrite stopSound_eq.
    + unfold toggleSound.
      destruct (isPlaying s), (currentSound s); rewrite ?playSound_eq; try done.
      case String.eqb; by rewrite ?playSound_eq, ?stopSound_eq.
    + by destruct (Hne v).
    + by rewrite cleanup_eq.
Qed.




(** C9.  For every number [v] that a volume string stands for,
    [changeVolume v] followed by a new mount of the hook on the
    resulting store gives the initial volume [v]: [v.toString()] is
    never empty, and [parseFloat] reads it back as [v]. *)
Theorem volume_round_trip v s :
  canonical v = true →
  localStorage (changeVolume v s) !! volume_key = Some (toString v) ∧
  volume (useAmbientSounds (localStorage (changeVolume v s))) = v.
Proof.
  intros Hc.
  assert (E : localStorage (changeVolume v s) !! volume_key = Some (toString v)).
  { rewrite changeVolume_cases. cbv zeta.
    destruct s as [ip cs il vv ar vr g pr lt l ls c]. simpl.
    destruct ar; apply lookup_insert_eq. }
  split; [ done | ].
  unfold useAmbientSounds, initial_volume. simpl. rewrite E.
  pose proof (parseFloat_toString v Hc) as Hrt.
  destruct (toString v) as [|c r]; [ | done ].
  rewrite <- Hrt in Hc. by vm_compute in Hc.
Qed.

Lemma volume_round_trip_witness :
  let v := Finite false [d7] 0 in
  let s := changeVolume v (useAmbientSounds ∅) in
  canonical v = true ∧
  localStorage s !! volume_key = Some "0.7"%string ∧
  volume (useAmbientSounds (localStorage s)) = v.
Proof.
  cbv zeta. split; [ done | ].
  exact (volume_round_trip (Finite false [d7] 0) (useAmbientSounds ∅) eq_refl).
Defined.

(** * The two earlier revisions

    What the generation counter was added for: the earlier revisions
    drop a request made while loading, and let a callback of an
    abandoned request take effect. *)



(** First revision: [stop()] during a load does not reach the element
    being loaded (it is in no ref), so its [canplaythrough] listener
    still starts it: the sound plays and is shown as playing after the
    stop. *)
Lemma first_revision_plays_after_stop :
  let s := Simple.run [Play rain; Stop] (useAmbientSounds ∅) in
  let s' := Simple.run [CanPlay 0; PlayResolved 0] s in
  (isPlaying s = false ∧ currentSound s = None ∧ isLoading s = false) ∧
  (isPlaying s' = true ∧ currentSound s' = Some rain ∧ audioRef s' = Some 0) ∧
  audible s' 0.
Proof.
  cbv zeta. split; [ by vm_compute | ]. split; [ by vm_compute | ].
  eexists. split; by vm_compute.
Qed.

(** Second revision: after [play(rain); stop(); play(birds)] both
    immediate [play()] promises may resolve, and then two elements
    sound at once, one of them referenced by nothing. *)
Lemma second_revision_two_audible :
  let s :=
    Retry.run [Play rain; Stop; Play bird_sound; PlayResolved 0; PlayResolved 1]
      (useAmbientSounds ∅) in
  audible s 0 ∧ audible s 1 ∧ audioRef s = Some 1 ∧
  currentSound s = Some bird_sound.
Proof.
  cbv zeta. split; [ eexists; split; by vm_compute | ].
  split; [ eexists; split; by vm_compute | ]. by vm_compute.
Qed.




(** * Further properties of the last revision *)

(** ** The generation counter *)

Lemma playIdRef_step t s :
  playIdRef (step t s) = playIdRef s ∨
  (invalidates t = true ∧ playIdRef (step t s) = S (playIdRef s)).
Proof.
  destruct (callback_target t) as [h'|] eqn:Ht.
  - left. apply callback_playIdRef. by destruct t.
  - destruct t; try discriminate Ht; cbn [step].
    + right. by rewrite playSound_eq.
    + right. by rewrite stopSound_eq.
    + right. unfold toggleSound.
      destruct (isPlaying s), (currentSound s); rewrite ?playSound_eq; try done.
      case String.eqb; by rewrite ?playSound_eq, ?stopSound_eq.
    + left. rewrite changeVolume_cases. cbv zeta.
      destruct (audioRef s) eqn:Ea; by destruct s.
    + right. by rewrite cleanup_eq.
Qed.

Lemma playIdRef_mono t s : playIdRef s ≤ playIdRef (step t s).
Proof. destruct (playIdRef_step t s) as [-> | [_ ->]]; lia. Qed.

Lemma stale_step t s h a :
  audios s !! h = Some a → thisPlayId a < playIdRef s →
  ∃ a', audios (step t s) !! h = Some a' ∧ thisPlayId a' < playIdRef (step t s).
Proof.
  intros E Hlt. destruct (step_closure t s h a E) as (a' & E' & Hid & _).
  exists a'. split; [done|]. pose proof (playIdRef_mono t s). lia.
Qed.

Lemma stale_run ts s h a :
  audios s !! h = Some a → thisPlayId a < playIdRef s →
  ∃ a', audios (run ts s) !! h = Some a' ∧ thisPlayId a' < playIdRef (run ts s).
Proof.
  revert s a. induction ts as [|t ts IH]; intros s a E Hlt; [ by exists a | ].
  simpl. destruct (stale_step t s h a E Hlt) as (a' & E' & Hlt'). by eapply IH.
Qed.

Lemma invariant_silent s : invariant s → audioRef s = None → ∀ h, ¬ audible s h.
Proof. intros I Hr h (a & E & Hp). pose proof (inv_audible _ I _ _ E Hp). congruence. Qed.

(** A closure that is stale stays stale: whatever tasks follow (calls
    of the UI as well as callbacks), its element is never audible and
    is never referenced as active or pending again. *)
Theorem superseded_never_audible s h a ts :
  reachable s → audios s !! h = Some a → thisPlayId a ≠ playIdRef s →
  ¬ audible (Generation.run ts s) h ∧
  audioRef (Generation.run ts s) ≠ Some h ∧
  pendingAudioRef (Generation.run ts s) ≠ Some h.
Proof.
  intros R E Hne. pose proof (reachable_invariant _ R) as I.
  pose proof (inv_gen_le _ I _ _ E) as Hle.
  destruct (stale_run ts s h a E ltac:(lia)) as (a' & E' & Hlt).
  pose proof (invariant_run ts s I) as I'.
  assert (Hr : audioRef (run ts s) ≠ Some h).
  { intros Hr. destruct (inv_active _ I' _ Hr) as (x & Ex & Hg & _).
    assert (x = a') as -> by congruence. lia. }
  split; [ | split; [ done | ] ].
  - intros (x & Ex & Hp). by pose proof (inv_audible _ I' _ _ Ex Hp).
  - intros Hp. destruct (inv_pending _ I' _ Hp) as (x & Ex & Hg).
    assert (x = a') as -> by congruence. lia.
Qed.

Lemma superseded_never_audible_witness :
  let s := Generation.run [Play rain; Play bird_sound] (useAmbientSounds ∅) in
  reachable s ∧
  ¬ audible (Generation.run [PlayResolved 0; CanPlay 0; PlayResolved 0; Play rain] s) 0.
Proof.
  cbv zeta.
  set (s := Generation.run [Play rain; Play bird_sound] (useAmbientSounds ∅)).
  assert (R : reachable s) by (by exists ∅, [Play rain; Play bird_sound]).
  split; [ exact R | ].
  assert (E : ∃ a, audios s !! 0 = Some a ∧ thisPlayId a ≠ playIdRef s).
  { eexists. split; [ by vm_compute | ]. by vm_compute. }
  destruct E as (a & E & Hg).
  exact (proj1 (superseded_never_audible s 0 a _ R E Hg)).
Defined.

(** Every call of [playSound], [stopSound], [toggleSound] and the
    unmount cleanup moves the counter on by exactly one, and so makes
    the closure of every element created before the call stale. *)
Theorem user_call_invalidates t s :
  reachable s → invalidates t = true →
  playIdRef (Generation.step t s) = S (playIdRef s) ∧
  ∀ h a, audios s !! h = Some a →
    ∃ a', audios (Generation.step t s) !! h = Some a' ∧
          thisPlayId a' = thisPlayId a ∧
          thisPlayId a' < playIdRef (Generation.step t s).
Proof.
  intros R Ht. pose proof (reachable_invariant _ R) as I.
  assert (Hg : playIdRef (step t s) = S (playIdRef s)).
  { destruct (playIdRef_step t s) as [H | [_ H]]; [ | done ].
    destruct t; try discriminate Ht; cbn [step] in *.
    - rewrite playSound_eq in H. simpl in H. lia.
    - rewrite stopSound_eq in H. simpl in H. lia.
    - revert H. unfold toggleSound.
      destruct (isPlaying s), (currentSound s); rewrite ?playSound_eq; simpl; try lia.
      case String.eqb; rewrite ?playSound_eq, ?stopSound_eq; simpl; lia.
    - rewrite cleanup_eq in H. simpl in H. lia. }
  split; [ done | ]. intros h a E.
  destruct (step_closure t s h a E) as (a' & E' & Hid & _).
  exists a'. repeat split; try done.
  pose proof (inv_gen_le _ I _ _ E). lia.
Qed.

Lemma user_call_invalidates_witness :
  let s := Generation.run [Play rain] (useAmbientSounds ∅) in
  reachable s ∧ playIdRef (Generation.step (Toggle bird_sound) s) = 2.
Proof.
  cbv zeta. set (s := Generation.run [Play rain] (useAmbientSounds ∅)).
  assert (R : reachable s) by (by eexists ∅, _).
  split; [ exact R | ].
  exact (proj1 (user_call_invalidates (Toggle bird_sound) s R eq_refl)).
Defined.

(** ** After [stopSound] and after unmount *)

Lemma quiescent_callback t s :
  invariant s → quiescent s → is_callback t = true →
  quiescent (step t s) ∧
  isPlaying (step t s) = isPlaying s ∧ currentSound (step t s) = currentSound s ∧
  isLoading (step t s) = isLoading s ∧ volume (step t s) = volume s ∧
  console (step t s) = console s ∧ playIdRef (step t s) = playIdRef s.
Proof.
  intros I (Q1 & Q2 & Q3 & Q4) Hc.
  assert (∃ h, callback_target t = Some h) as [h Ht] by (destruct t; by eauto).
  assert (Hq : quiescent (step t s)).
  { destruct (audioRef_step t s) as [Hr | [Hr | (h0 & a & _ & E & Hg & _)]];
      [ | | specialize (Q4 _ _ E); lia ].
    all: split; [ congruence | ].
    all: destruct (callback_cases t h s Ht)
      as [(f & Hf & Heq) | [(a0 & _ & E0 & _ & Hg0 & _) |
          [(a0 & k & _ & _ & _ & _ & Heq) | (a0 & k & _ & E0 & _ & Hg0 & _)]]];
      try (specialize (Q4 _ _ E0); lia).
    all: rewrite Heq;
      match goal with |- context [on_audio ?g ?i ?s0] =>
        destruct (on_audio_frame g i s0) as (_ & _ & _ & _ & _ & _ & -> & -> & -> & _) end.
    all: repeat (split; [done|]); intros i a'; rewrite on_audio_lookup.
    all: destruct (audios s !! i) as [x|] eqn:Ex; [ | done ]; simpl; intros [= <-].
    all: specialize (Q4 _ _ Ex); case_decide; [ | done ].
    - by destruct (Hf x) as (_ & _ & _ & _ & -> & _).
    - by destruct x.
    - by destruct (Hf x) as (_ & _ & _ & _ & -> & _).
    - by destruct x. }
  split; [ done | ].
  destruct (callback_cases t h s Ht)
    as [(f & Hf & ->) | [(a0 & _ & E0 & _ & Hg0 & _) |
        [(a0 & k & _ & _ & _ & _ & ->) | (a0 & k & _ & E0 & _ & Hg0 & _)]]];
    try (specialize (Q4 _ _ E0); lia).
  all: by destruct s.
Qed.

Lemma quiescent_run cbs s :
  invariant s → quiescent s → Forall (λ t, is_callback t = true) cbs →
  quiescent (run cbs s) ∧
  isPlaying (run cbs s) = isPlaying s ∧ currentSound (run cbs s) = currentSound s ∧
  isLoading (run cbs s) = isLoading s ∧ volume (run cbs s) = volume s ∧
  console (run cbs s) = console s ∧ playIdRef (run cbs s) = playIdRef s.
Proof.
  intros I Q Hcbs. revert s I Q.
  induction Hcbs as [|t ts Ht _ IH]; intros s I Q; [ done | ].
  change (run (t :: ts) s) with (run ts (step t s)).
  destruct (quiescent_callback t s I Q Ht) as (Q' & <- & <- & <- & <- & <- & <-).
  apply IH; [ by apply invariant_step | done ].
Qed.

Lemma quiescent_released s g :
  invariant s → playIdRef s < g →
  ∀ h a, released s !! h = Some a → thisPlayId a < g.
Proof.
  intros I Hg h a' (a & E & -> & _)%released_lookup.
  pose proof (inv_gen_le _ I _ _ E). lia.
Qed.

Lemma quiescent_stopSound s : invariant s → quiescent (stopSound s).
Proof.
  intros I. rewrite stopSound_eq. repeat (split; [done|]). simpl.
  apply quiescent_released; [ done | lia ].
Qed.

Lemma quiescent_cleanup s : invariant s → quiescent (cleanup s).
Proof.
  intros I. rewrite cleanup_eq. repeat (split; [done|]). simpl.
  apply quiescent_released; [ done | lia ].
Qed.

(** [stopSound] is final: whatever callbacks the browser still runs
    for the elements created before the call, the component stays
    Idle, references nothing, logs nothing, and nothing is audible. *)
Theorem stop_is_final s cbs :
  reachable s → Forall (λ t, is_callback t = true) cbs →
  let s' := Generation.run cbs (Generation.stopSound s) in
  (isPlaying s' = false ∧ currentSound s' = None ∧ isLoading s' = false) ∧
  (audioRef s' = None ∧ pendingAudioRef s' = None ∧ loadTimeoutRef s' = None) ∧
  (∀ h, ¬ audible s' h) ∧
  (volume s' = volume s ∧ console s' = console s).
Proof.
  intros R Hcbs s'. pose proof (reachable_invariant _ R) as I.
  destruct (quiescent_run cbs (stopSound s) (invariant_stopSound _ I)
              (quiescent_stopSound _ I) Hcbs)
    as ((Q1 & Q2 & Q3 & _) & H1 & H2 & H3 & H4 & H5 & _).
  fold s' in Q1, Q2, Q3, H1, H2, H3, H4, H5.
  rewrite stopSound_eq in H1, H2, H3, H4, H5. simpl in *.
  repeat split; try done.
  apply invariant_silent; [ | done ].
  by apply invariant_run, invariant_stopSound.
Qed.

Lemma stop_is_final_witness :
  let s := Generation.run [Play rain; CanPlay 0] (useAmbientSounds ∅) in
  let s' :=
    Generation.run [PlayResolved 0; TimerFired 0; PlayResolved 0; ErrorEvent 0]
      (Generation.stopSound s) in
  reachable s ∧ isLoading s = true ∧
  isPlaying s' = false ∧ isLoading s' = false ∧ ∀ h, ¬ audible s' h.
Proof.
  cbv zeta. set (s := Generation.run [Play rain; CanPlay 0] (useAmbientSounds ∅)).
  assert (R : reachable s) by (by exists ∅, [Play rain; CanPlay 0]).
  assert (F : Forall (λ t, is_callback t = true)
                [PlayResolved 0; TimerFired 0; PlayResolved 0; ErrorEvent 0])
    by (repeat constructor).
  split; [ exact R | ]. split; [ by vm_compute | ].
  destruct (stop_is_final s _ R F) as ((H1 & _ & H3) & _ & H4 & _).
  by repeat split.
Defined.

(** The unmount cleanup is final: whatever callbacks the browser runs
    afterwards, no state setter takes effect ([isPlaying],
    [currentSound], [isLoading] and [volume] are as they were at
    unmount), nothing is logged, nothing is referenced, no element is
    audible and no timer is armed. *)
Theorem unmount_is_final s cbs :
  reachable s → Forall (λ t, is_callback t = true) cbs →
  let s' := Generation.run cbs (Generation.step Unmount s) in
  (isPlaying s' = isPlaying s ∧ currentSound s' = currentSound s ∧
   isLoading s' = isLoading s ∧ volume s' = volume s ∧ console s' = console s) ∧
  (audioRef s' = None ∧ pendingAudioRef s' = None ∧ loadTimeoutRef s' = None) ∧
  (∀ h, ¬ audible s' h) ∧
  (∀ h a, audios s' !! h = Some a → timer a = false).
Proof.
  intros R Hcbs s'. pose proof (reachable_invariant _ R) as I.
  change (step Unmount s) with (cleanup s) in s'.
  destruct (quiescent_run cbs (cleanup s) (invariant_cleanup _ I)
              (quiescent_cleanup _ I) Hcbs)
    as ((Q1 & Q2 & Q3 & _) & H1 & H2 & H3 & H4 & H5 & _).
  fold s' in Q1, Q2, Q3, H1, H2, H3, H4, H5.
  rewrite cleanup_eq in H1, H2, H3, H4, H5. simpl in *.
  assert (I' : invariant s') by (by apply invariant_run, invariant_cleanup).
  repeat split; try done.
  - by apply invariant_silent.
  - intros h a E. destruct (timer a) eqn:Ht; [ | done ].
    pose proof (inv_timer _ I' _ _ E Ht). congruence.
Qed.

Lemma unmount_is_final_witness :
  let s := Generation.run [Play rain] (useAmbientSounds ∅) in
  let s' :=
    Generation.run [CanPlay 0; PlayResolved 0; PlayResolved 0]
      (Generation.step Unmount s) in
  reachable s ∧ isLoading s = true ∧
  isPlaying s' = false ∧ audioRef s' = None ∧ ∀ h, ¬ audible s' h.
Proof.
  cbv zeta. set (s := Generation.run [Play rain] (useAmbientSounds ∅)).
  assert (R : reachable s) by (by exists ∅, [Play rain]).
  assert (F : Forall (λ t, is_callback t = true)
                [CanPlay 0; PlayResolved 0; PlayResolved 0])
    by (repeat constructor).
  split; [ exact R | ]. split; [ by vm_compute | ].
  destruct (unmount_is_final s _ R F) as ((H1 & _) & (H2 & _) & H3 & _).
  rewrite H1. split; [ by vm_compute | by split ].
Defined.

(** ** The retry timer *)

Lemma timer_of_pending_step t s : timer_of_pending s → timer_of_pending (step t s).
Proof.
  intros T. unfold timer_of_pending in *.
  destruct (callback_target t) as [h'|] eqn:Ht.
  - destruct (callback_cases t h' s Ht)
      as [(f & Hf & ->) | [(a0 & _ & _ & _ & _ & ->) |
          [(a0 & k & _ & _ & _ & _ & ->) | (a0 & k & _ & _ & _ & _ & ->)]]];
      by destruct s.
  - destruct t; try discriminate Ht; cbn [step].
    + rewrite playSound_eq. by simpl.
    + by rewrite stopSound_eq.
    + unfold toggleSound.
      destruct (isPlaying s), (currentSound s); rewrite ?playSound_eq; try done.
      case String.eqb; by rewrite ?playSound_eq, ?stopSound_eq.
    + rewrite changeVolume_cases. cbv zeta.
      destruct (audioRef s) eqn:Ea; by destruct s.
    + by rewrite cleanup_eq.
Qed.

Lemma reachable_timer_of_pending s : reachable s → timer_of_pending s.
Proof.
  intros (storage & ts & ->).
  assert (H : timer_of_pending (useAmbientSounds storage)) by done.
  revert H. generalize (useAmbientSounds storage).
  induction ts as [|t ts IH]; intros s H; [ done | ].
  simpl. by apply IH, timer_of_pending_step.
Qed.

(** At most one retry timer is armed, and it belongs to the request in
    flight: its element is the one in [loadTimeoutRef] and in
    [pendingAudioRef], of the live generation, not started and not
    audible, and no element is active. *)
Theorem armed_timer_is_pending s h a :
  reachable s → audios s !! h = Some a → timer a = true →
  loadTimeoutRef s = Some h ∧ pendingAudioRef s = Some h ∧ audioRef s = None ∧
  thisPlayId a = playIdRef s ∧ started a = false ∧ el_playing a = false ∧
  ∀ h' a', audios s !! h' = Some a' → timer a' = true → h' = h.
Proof.
  intros R E Ht. pose proof (reachable_invariant _ R) as I.
  pose proof (inv_timer _ I _ _ E Ht) as Hl.
  pose proof (reachable_timer_of_pending _ R _ Hl) as Hp.
  destruct (inv_pending _ I _ Hp) as (x & Ex & Hg).
  assert (x = a) as -> by congruence.
  assert (Hr : audioRef s = None).
  { destruct (audioRef s) as [r|] eqn:Hr; [ | done ].
    destruct (inv_active _ I _ Hr) as (y & _ & _ & _ & _ & _ & _ & _ & Hq & _).
    congruence. }
  repeat split; try done.
  - destruct (started a) eqn:Hs; [ | done ].
    pose proof (inv_started _ I _ _ E Hs Hg). congruence.
  - destruct (el_playing a) eqn:Hs; [ | done ].
    pose proof (inv_audible _ I _ _ E Hs). congruence.
  - intros h' a' E' Ht'. pose proof (inv_timer _ I _ _ E' Ht'). congruence.
Qed.

Lemma armed_timer_is_pending_witness :
  let s := Generation.run [Play rain; Play bird_sound; CanPlay 1] (useAmbientSounds ∅) in
  reachable s ∧ (∃ a, audios s !! 1 = Some a ∧ timer a = true) ∧
  pendingAudioRef s = Some 1.
Proof.
  cbv zeta.
  set (s := Generation.run [Play rain; Play bird_sound; CanPlay 1] (useAmbientSounds ∅)).
  assert (R : reachable s) by (by exists ∅, [Play rain; Play bird_sound; CanPlay 1]).
  assert (E : ∃ a, audios s !! 1 = Some a ∧ timer a = true).
  { eexists. split; by vm_compute. }
  split; [ exact R | ]. split; [ exact E | ]. destruct E as (a & E & Ht).
  exact (proj1 (proj2 (armed_timer_is_pending s 1 a R E Ht))).
Defined.

(** ** The console *)


(** ** The start transition *)

Lemma step_PlayResolved_live h s a k :
  audios s !! h = Some a → play_promises a = S k → thisPlayId a = playIdRef s →
  step (PlayResolved h) s =
  mkState true (Some (sound a)) false (volume s) (Some h) (volumeRef s)
    (playIdRef s) None None
    (clear_timer (loadTimeoutRef s)
       (alter (λ a, set_started true (set_playing true (set_play_promises k a)))
          h (audios s)))
    (localStorage s) (console s).
Proof.
  intros E Ek Hg. rewrite (step_PlayResolved _ _ _ _ E Ek).
  set (f := λ a, set_playing true (set_play_promises k a)).
  assert (E1 : audios (on_audio f h s) !! h = Some (f a)).
  { rewrite on_audio_lookup, E. simpl. by rewrite decide_True. }
  rewrite (playFulfilled_live _ _ _ E1) by (by destruct s, a).
  destruct s, a; simpl. do 2 f_equal. apply list_alter_alter_eq.
Qed.

(** When a [play()] promise of an element of the live generation
    resolves, the component is Playing that element's sound, whatever
    [isLoading] was (also after a load error): the element is the
    active one and the only audible one, nothing is pending, and no
    timer is left armed. *)
Theorem confirmation_starts_playing s h a k :
  reachable s → audios s !! h = Some a → play_promises a = S k →
  thisPlayId a = playIdRef s →
  let s' := Generation.step (PlayResolved h) s in
  (isPlaying s' = true ∧ currentSound s' = Some (sound a) ∧ isLoading s' = false) ∧
  (audioRef s' = Some h ∧ pendingAudioRef s' = None ∧ loadTimeoutRef s' = None) ∧
  (audible s' h ∧ ∀ j, audible s' j → j = h) ∧
  (∀ i x, audios s' !! i = Some x → timer x = false) ∧
  (volume s' = volume s ∧ console s' = console s ∧ playIdRef s' = playIdRef s).
Proof.
  intros R E Ek Hg s'. pose proof (reachable_invariant _ R) as I.
  assert (I' : invariant s') by (by apply invariant_step).
  assert (Heq := step_PlayResolved_live _ _ _ _ E Ek Hg). fold s' in Heq.
  assert (Hr : audioRef s' = Some h) by (by rewrite Heq).
  assert (Hl : loadTimeoutRef s' = None) by (by rewrite Heq).
  split; [ by rewrite Heq | ]. split; [ by rewrite Heq | ].
  split; [ split | split; [ | by rewrite Heq ] ].
  - destruct (inv_active _ I' _ Hr) as (x & Ex & _ & _ & Hx & _). by exists x.
  - intros j (x & Ex & Hx). pose proof (inv_audible _ I' _ _ Ex Hx). congruence.
  - intros i x Ex. destruct (timer x) eqn:Ht; [ | done ].
    pose proof (inv_timer _ I' _ _ Ex Ht). congruence.
Qed.

Lemma confirmation_starts_playing_witness :
  let s := Generation.run [Play rain; ErrorEvent 0] (useAmbientSounds ∅) in
  let s' := Generation.step (PlayResolved 0) s in
  reachable s ∧ isLoading s = false ∧ isPlaying s = false ∧
  isPlaying s' = true ∧ currentSound s' = Some rain ∧ audible s' 0.
Proof.
  cbv zeta. set (s := Generation.run [Play rain; ErrorEvent 0] (useAmbientSounds ∅)).
  assert (R : reachable s) by (by eexists ∅, _).
  assert (E : audios s !! 0 = Some
    (mkAudio (audioUrl rain) true default_volume false true false 1 true 1 rain false))
    by (by vm_compute).
  split; [ exact R | ]. split; [ by vm_compute | ]. split; [ by vm_compute | ].
  destruct (confirmation_starts_playing s 0 _ 0 R E eq_refl eq_refl)
    as ((H1 & H2 & _) & _ & (H3 & _) & _).
  by repeat split.
Defined.



(** ** What is heard is what is shown *)

Lemma released_loop s h a' :
  released s !! h = Some a' →
  ∃ a, audios s !! h = Some a ∧ el_loop a' = el_loop a ∧ thisPlayId a' = thisPlayId a.
Proof.
  destruct s as [ip cs il v ar vr g pr lt l ls c]. unf.
  destruct lt, pr, ar; rewrite ?lookup_alter_if.
  all: destruct (l !! h) as [a|]; [ | done ]; simpl; intros [= <-].
  all: exists a; split; [done|]; destruct a; repeat case_decide; done.
Qed.

Lemma callback_element t s i a' :
  is_callback t = true → audios (step t s) !! i = Some a' →
  ∃ a, audios s !! i = Some a ∧ el_src a' = el_src a ∧ el_loop a' = el_loop a ∧
       el_volume a' = el_volume a ∧ thisPlayId a' = thisPlayId a ∧ sound a' = sound a.
Proof.
  intros Hc.
  assert (∃ h, callback_target t = Some h) as [h Ht] by (destruct t; by eauto).
  destruct (callback_cases t h s Ht)
    as [(f & Hf & ->) | [(a0 & _ & _ & _ & _ & ->) |
        [(a0 & k & _ & _ & _ & _ & ->) | (a0 & k & _ & _ & _ & _ & ->)]]].
  - rewrite on_audio_lookup. destruct (audios s !! i) as [a|]; [ | done ].
    simpl. intros [= <-]. exists a. split; [done|]. case_decide; [ | done ].
    destruct (Hf a) as (-> & -> & -> & _ & -> & -> & _). done.
  - replace (audios (setIsLoading false _)) with (audios (on_audio (set_on_error false) h s))
      by (by destruct s).
    rewrite on_audio_lookup. destruct (audios s !! i) as [a|]; [ | done ].
    simpl. intros [= <-]. exists a. split; [done|]. case_decide; by destruct a.
  - rewrite on_audio_lookup. destruct (audios s !! i) as [a|]; [ | done ].
    simpl. intros [= <-]. exists a. split; [done|]. case_decide; by destruct a.
  - cbn [audios]. rewrite clear_timer_lookup, lookup_alter_if.
    destruct (audios s !! i) as [a|]; [ | done ].
    simpl. intros [= <-]. exists a. split; [done|].
    destruct a. by repeat case_decide.
Qed.

Lemma sources_kept_released s g :
  invariant s → sources_kept s → playIdRef s < g →
  ∀ h a, released s !! h = Some a →
    el_loop a = true ∧ (thisPlayId a = g → el_src a = audioUrl (sound a)).
Proof.
  intros I K Hg h a' (a & E & -> & ->)%released_loop.
  split; [ by apply (K h a) | ]. pose proof (inv_gen_le _ I _ _ E). lia.
Qed.

Lemma sources_kept_step t s :
  invariant s → sources_kept s → sources_kept (step t s).
Proof.
  intros I K.
  assert (P : ∀ snd, sources_kept (playSound snd s)).
  { intros snd h a. rewrite playSound_eq. simpl.
    intros [E | [H1 H2]]%lookup_app_Some.
    - by apply (sources_kept_released s (S (playIdRef s)) I K ltac:(lia) h).
    - destruct (h - length (released s)) as [|k]; simpl in H2;
        [ | by rewrite lookup_nil in H2 ].
      by injection H2 as <-. }
  assert (Q : sources_kept (stopSound s)).
  { intros h a. rewrite stopSound_eq. simpl.
    by apply (sources_kept_released s (S (playIdRef s)) I K ltac:(lia) h). }
  destruct (is_callback t) eqn:Hc.
  - intros i a' E'. rewrite callback_playIdRef by done.
    destruct (callback_element t s i a' Hc E') as (a & E & -> & -> & _ & -> & ->).
    by apply (K i a).
  - destruct t; try discriminate Hc; cbn [step].
    + apply P.
    + apply Q.
    + unfold toggleSound. destruct (isPlaying s), (currentSound s); try apply P.
      case String.eqb; [ apply Q | apply P ].
    + rewrite changeVolume_cases. cbv zeta. intros i a'.
      destruct (audioRef s) as [r|].
      * rewrite on_audio_lookup.
        replace (audios (set_localStorage _ _)) with (audios s) by (by destruct s).
        replace (playIdRef (on_audio _ _ _)) with (playIdRef s) by (by destruct s).
        destruct (audios s !! i) as [a|] eqn:E; [ | done ]. simpl. intros [= <-].
        destruct (K i a E) as [K1 K2]. case_decide; [ | done ]. by destruct a.
      * replace (audios (set_localStorage _ _)) with (audios s) by (by destruct s).
        replace (playIdRef (set_localStorage _ _)) with (playIdRef s) by (by destruct s).
        apply K.
    + intros h a. rewrite cleanup_eq. simpl.
      by apply (sources_kept_released s (S (playIdRef s)) I K ltac:(lia) h).
Qed.

Lemma reachable_sources_kept s : reachable s → sources_kept s.
Proof.
  intros (storage & ts & ->).
  assert (H : invariant (useAmbientSounds storage) ∧ sources_kept (useAmbientSounds storage)).
  { split; [ apply invariant_init | ]. intros h a E. simpl in E. by rewrite lookup_nil in E. }
  revert H. generalize (useAmbientSounds storage).
  induction ts as [|t ts IH]; intros s [I K]; [ done | ].
  change (run (t :: ts) s) with (run ts (step t s)). apply IH.
  split; [ by apply invariant_step | by apply sources_kept_step ].
Qed.

(** An audible element is always the one in [audioRef], of the live
    generation, playing the source of the sound shown as
    [currentSound], looping, with [isPlaying] set and [isLoading]
    clear; it is the only audible element. *)
Theorem heard_is_shown s h :
  reachable s → audible s h →
  ∃ a, audios s !! h = Some a ∧ audioRef s = Some h ∧
       isPlaying s = true ∧ isLoading s = false ∧
       currentSound s = Some (sound a) ∧
       el_src a = audioUrl (sound a) ∧ el_loop a = true ∧
       pendingAudioRef s = None ∧ ∀ j, audible s j → j = h.
Proof.
  intros R (a & E & Hp). pose proof (reachable_invariant _ R) as I.
  pose proof (inv_audible _ I _ _ E Hp) as Hr.
  destruct (inv_active _ I _ Hr) as (x & Ex & Hg & _ & _ & Hip & Hcs & Hil & Hpr & _).
  assert (x = a) as -> by congruence.
  destruct (reachable_sources_kept _ R _ _ E) as [K1 K2].
  exists a. repeat (split; [ by auto | ]).
  intros j (b & Eb & Hb). pose proof (inv_audible _ I _ _ Eb Hb). congruence.
Qed.

Lemma heard_is_shown_witness :
  let s :=
    Generation.run [Play rain; Play bird_sound; PlayResolved 0; PlayResolved 1]
      (useAmbientSounds ∅) in
  reachable s ∧ audible s 1 ∧ currentSound s = Some bird_sound.
Proof.
  cbv zeta.
  set (s := Generation.run [Play rain; Play bird_sound; PlayResolved 0; PlayResolved 1]
              (useAmbientSounds ∅)).
  assert (R : reachable s) by (by eexists ∅, _).
  assert (A : audible s 1) by (eexists; split; by vm_compute).
  split; [ exact R | ]. split; [ exact A | ].
  destruct (heard_is_shown s 1 R A) as (a & E & _ & _ & _ & Hcs & _).
  rewrite Hcs. f_equal.
  assert (E' : audios s !! 1 = Some
    (mkAudio (audioUrl bird_sound) true default_volume true true true 0 false 2
       bird_sound true)) by (by vm_compute).
  rewrite E' in E. by injection E as <-.
Defined.

(** ** The volume *)

(** [changeVolume] reaches the active element only.  A volume change
    made while a request is loading changes no element, so when the
    pending element then starts it plays at the volume it was created
    with, while [volume] shows the new value. *)
Theorem volume_change_misses_pending s h a k v :
  reachable s → pendingAudioRef s = Some h →
  audios s !! h = Some a → play_promises a = S k →
  let s' := Generation.step (PlayResolved h) (changeVolume v s) in
  audios (changeVolume v s) = audios s ∧
  volume s' = v ∧ isPlaying s' = true ∧ audioRef s' = Some h ∧
  ∃ a', audios s' !! h = Some a' ∧ el_playing a' = true ∧
        el_volume a' = el_volume a.
Proof.
  intros R Hp E Ek s'. pose proof (reachable_invariant _ R) as I.
  assert (Hr : audioRef s = None).
  { destruct (audioRef s) as [r|] eqn:Hr; [ | done ].
    destruct (inv_active _ I _ Hr) as (y & _ & _ & _ & _ & _ & _ & _ & Hq & _).
    congruence. }
  destruct (inv_pending _ I _ Hp) as (x & Ex & Hg).
  assert (x = a) as -> by congruence.
  assert (Hcv : changeVolume v s =
    set_localStorage (<[volume_key := toString v]> (localStorage s))
      (set_volumeRef v (setVolume v s))).
  { rewrite changeVolume_cases. cbv zeta. by rewrite Hr. }
  split; [ rewrite Hcv; by destruct s | ].
  unfold s'. rewrite Hcv.
  match goal with |- context [step _ ?s0] => set (s1 := s0) end.
  assert (E1 : audios s1 !! h = Some a) by (by destruct s).
  assert (Hg1 : thisPlayId a = playIdRef s1) by (by destruct s).
  rewrite (step_PlayResolved_live _ _ _ _ E1 Ek Hg1).
  repeat (split; [ by destruct s | ]).
  cbn [audios]. rewrite clear_timer_lookup, lookup_alter_if, E1. simpl.
  rewrite (decide_True (P := h = h)) by done. eexists. split; [ done | ].
  destruct a. by case_decide.
Qed.

Lemma volume_change_misses_pending_witness :
  let v := Finite false [d7] 0 in
  let s := Generation.run [Play rain] (useAmbientSounds ∅) in
  let s' := Generation.step (PlayResolved 0) (changeVolume v s) in
  reachable s ∧ pendingAudioRef s = Some 0 ∧ volume s' = v ∧
  ∃ a', audios s' !! 0 = Some a' ∧ el_playing a' = true ∧
        el_volume a' = default_volume.
Proof.
  cbv zeta. set (s := Generation.run [Play rain] (useAmbientSounds ∅)).
  assert (R : reachable s) by (by exists ∅, [Play rain]).
  assert (Hp : pendingAudioRef s = Some 0) by (by vm_compute).
  assert (E : ∃ a, audios s !! 0 = Some a ∧ play_promises a = 1 ∧
                   el_volume a = default_volume).
  { eexists. split; [ by vm_compute | ]. by vm_compute. }
  destruct E as (a & E & Ek & Hv).
  split; [ exact R | ]. split; [ exact Hp | ].
  destruct (volume_change_misses_pending s 0 a 0 (Finite false [d7] 0) R Hp E Ek)
    as (_ & H1 & _ & _ & a' & E' & Hpl & Hvol).
  split; [ exact H1 | ]. exists a'. rewrite Hvol. by repeat split.
Defined.


(** ** Rejected start attempts *)

Lemma exhausted_step t s h :
  invariant s → exhausted h s → is_callback t = true → t ≠ ErrorEvent h →
  exhausted h (step t s) ∧
  isPlaying (step t s) = isPlaying s ∧ currentSound (step t s) = currentSound s ∧
  audioRef (step t s) = audioRef s ∧ console (step t s) = console s.
Proof.
  intros I (Hp & Hl & a & E & Hg & Hc & Htm & Hk) Hcb Hne.
  assert (∃ i, callback_target t = Some i) as [i Ht] by (destruct t; by eauto).
  assert (Hlive : ∀ j x, audios s !! j = Some x → thisPlayId x = playIdRef s → j = h).
  { intros j x Ej Hj. pose proof (inv_live_last _ I _ _ Ej Hj).
    pose proof (inv_live_last _ I _ _ E Hg). lia. }
  destruct (decide (i = h)) as [-> | Hi].
  - assert (step t s = s) as ->; [ | split; [ | done ]; by repeat (split; [done|]); exists a ].
    destruct t; try discriminate Hcb; injection Ht as ->; cbn [step]; rewrite E.
    + by rewrite Hc.
    + done.
    + by rewrite Htm.
    + by rewrite Hk.
    + by rewrite Hk.
  - destruct (callback_cases t i s Ht)
      as [(f & Hf & Heq) | [(a0 & -> & E0 & _ & Hg0 & _) |
          [(a0 & k & _ & _ & _ & _ & Heq) | (a0 & k & _ & E0 & _ & Hg0 & _)]]];
      try (by specialize (Hlive _ _ E0 Hg0)).
    all: rewrite Heq; unfold exhausted;
      match goal with |- context [on_audio ?g ?j ?s0] =>
        destruct (on_audio_frame g j s0) as (-> & -> & -> & _ & -> & _ & -> & -> & _ & _ & ->) end.
    all: split; [ | done ]; repeat (split; [done|]); exists a.
    all: rewrite (on_audio_lookup_fwd _ _ _ _ _ E), decide_False by done; done.
Qed.

(** Once the live request has used up its start attempts (listener and
    timer fired, every [play()] promise rejected by the empty
    [catch]), the component stays loading: whatever callbacks other
    than the [error] event of that element follow, [isLoading] stays
    set, the element stays pending, nothing is audible or logged, and
    each trigger of the element is a no-op. *)
Theorem rejected_attempts_leave_loading s h cbs :
  reachable s → exhausted h s →
  Forall (λ t, is_callback t = true ∧ t ≠ ErrorEvent h) cbs →
  let s' := Generation.run cbs s in
  isLoading s' = true ∧ pendingAudioRef s' = Some h ∧ audioRef s' = None ∧
  isPlaying s' = isPlaying s ∧ currentSound s' = currentSound s ∧
  console s' = console s ∧ (∀ i, ¬ audible s' i) ∧
  Generation.step (CanPlay h) s' = s' ∧ Generation.step (TimerFired h) s' = s' ∧
  Generation.step (PlayResolved h) s' = s' ∧ Generation.step (PlayRejected h) s' = s'.
Proof.
  intros R Hex Hcbs s'. pose proof (reachable_invariant _ R) as I.
  assert (Hr : audioRef s = None).
  { destruct Hex as (Hp & _). destruct (audioRef s) as [r|] eqn:Hr; [ | done ].
    destruct (inv_active _ I _ Hr) as (y & _ & _ & _ & _ & _ & _ & _ & Hq & _).
    congruence. }
  assert (H : invariant s' ∧ exhausted h s' ∧ isPlaying s' = isPlaying s ∧
              currentSound s' = currentSound s ∧ audioRef s' = audioRef s ∧
              console s' = console s).
  { unfold s'. clear s' R. revert s I Hex Hr.
    induction Hcbs as [|t ts [Ht Hne] _ IH]; intros s I Hex Hr; [ done | ].
    change (run (t :: ts) s) with (run ts (step t s)).
    destruct (exhausted_step t s h I Hex Ht Hne) as (Hex' & <- & <- & Hr' & <-).
    rewrite <- Hr'. apply IH; [ by apply invariant_step | done | congruence ]. }
  destruct H as (I' & (Hp & Hl & a & E & Hg & Hc & Htm & Hk) & H1 & H2 & H3 & H4).
  rewrite Hr in H3.
  repeat (split; [ done | ]).
  split; [ by apply invariant_silent | ].
  cbn [step]. rewrite E, Hc, Htm, Hk. done.
Qed.

Lemma rejected_attempts_leave_loading_witness :
  let s :=
    Generation.run
      [Play rain; PlayRejected 0; CanPlay 0; PlayRejected 0; TimerFired 0;
       PlayRejected 0] (useAmbientSounds ∅) in
  reachable s ∧ exhausted 0 s ∧
  isLoading (Generation.run [CanPlay 0; TimerFired 0; PlayResolved 0] s) = true.
Proof.
  cbv zeta.
  set (s := Generation.run
      [Play rain; PlayRejected 0; CanPlay 0; PlayRejected 0; TimerFired 0;
       PlayRejected 0] (useAmbientSounds ∅)).
  assert (R : reachable s) by (by eexists ∅, _).
  assert (X : exhausted 0 s).
  { split; [ by vm_compute | ]. split; [ by vm_compute | ].
    eexists. split; [ by vm_compute | ]. by vm_compute. }
  assert (F : Forall (λ t, is_callback t = true ∧ t ≠ ErrorEvent 0)
                [CanPlay 0; TimerFired 0; PlayResolved 0])
    by (repeat constructor; done).
  split; [ exact R | ]. split; [ exact X | ].
  exact (proj1 (rejected_attempts_leave_loading s 0 _ R X F)).
Defined.

(** ** Toggling *)



Lemma catalog_id_injective snd snd' :
  snd ∈ AMBIENT_SOUNDS → snd' ∈ AMBIENT_SOUNDS → id snd = id snd' → snd = snd'.
Proof.
  unfold AMBIENT_SOUNDS. rewrite !elem_of_cons, !elem_of_nil.
  intros [-> | [-> | [-> | [-> | []]]]] [-> | [-> | [-> | [-> | []]]]]; by vm_compute.
Qed.

(** The sounds of the catalog have pairwise different ids, so for them
    the id test of [toggleSound] is a test of the sound: while a
    catalog sound is shown as playing, toggling it stops it, and
    toggling any other catalog sound starts that one. *)
Theorem toggle_catalog cur snd s :
  cur ∈ AMBIENT_SOUNDS → snd ∈ AMBIENT_SOUNDS →
  isPlaying s = true → currentSound s = Some cur →
  (cur = snd → Generation.toggleSound snd s = Generation.stopSound s) ∧
  (cur ≠ snd → Generation.toggleSound snd s = Generation.playSound snd s).
Proof.
  intros Hc Hs Hp Hcur. unfold toggleSound. rewrite Hp, Hcur. split.
  - intros ->. by rewrite String.eqb_refl.
  - intros Hne. destruct (String.eqb_spec (id cur) (id snd)) as [Hid|]; [ | done ].
    by destruct Hne; apply catalog_id_injective.
Qed.

Lemma toggle_catalog_witness :
  let s := Generation.run [Play rain; PlayResolved 0] (useAmbientSounds ∅) in
  (rain ∈ AMBIENT_SOUNDS ∧ bird_sound ∈ AMBIENT_SOUNDS) ∧
  (isPlaying s = true ∧ currentSound s = Some rain) ∧
  Generation.toggleSound rain s = Generation.stopSound s ∧
  Generation.toggleSound bird_sound s = Generation.playSound bird_sound s.
Proof.
  cbv zeta. set (s := Generation.run [Play rain; PlayResolved 0] (useAmbientSounds ∅)).
  assert (H1 : rain ∈ AMBIENT_SOUNDS) by (unfold AMBIENT_SOUNDS; repeat constructor).
  assert (H2 : bird_sound ∈ AMBIENT_SOUNDS) by (unfold AMBIENT_SOUNDS; repeat constructor).
  assert (H3 : isPlaying s = true) by (by vm_compute).
  assert (H4 : currentSound s = Some rain) by (by vm_compute).
  split; [ by split | ]. split; [ by split | ]. split.
  - exact (proj1 (toggle_catalog rain rain s H1 H1 H3 H4) eq_refl).
  - apply (proj2 (toggle_catalog rain bird_sound s H1 H2 H3 H4)). discriminate.
Defined.

(** * The three revisions together *)

Lemma settings_on_audio f h s : settings (on_audio f h s) = settings s.
Proof. by destruct s. Qed.
Lemma settings_new_audio a s : settings (new_audio a s) = settings s.
Proof. by destruct s. Qed.
Lemma settings_console_error m s : settings (console_error m s) = settings s.
Proof. by destruct s. Qed.
Lemma settings_setIsPlaying b s : settings (setIsPlaying b s) = settings s.
Proof. by destruct s. Qed.
Lemma settings_setCurrentSound c s : settings (setCurrentSound c s) = settings s.
Proof. by destruct s. Qed.
Lemma settings_setIsLoading b s : settings (setIsLoading b s) = settings s.
Proof. by destruct s. Qed.
Lemma settings_set_audioRef r s : settings (set_audioRef r s) = settings s.
Proof. by destruct s. Qed.
Lemma settings_releaseActive s : settings (releaseActive s) = settings s.
Proof. unfold releaseActive. destruct (audioRef s) eqn:E; by destruct s. Qed.

Create Rewrite HintDb settings.
#[local] Hint Rewrite settings_on_audio settings_new_audio settings_console_error
  settings_setIsPlaying settings_setCurrentSound settings_setIsLoading
  settings_set_audioRef settings_releaseActive : settings.

Ltac settings_frame :=
  repeat case_match; autorewrite with settings; try done.

Lemma Simple_step_settings t s :
  (∀ v, t ≠ ChangeVolume v) → settings (Simple.step t s) = settings s.
Proof.
  intros Hne. destruct t; try (by destruct (Hne v)); cbn [Simple.step];
    unfold Simple.toggleSound, Simple.playSound, Simple.stopSound, Simple.cleanup,
      Simple.handleCanPlay, Simple.handleError, Simple.playFulfilled,
      Simple.playRejected; cbv zeta; settings_frame.
Qed.

Lemma Retry_step_settings t s :
  (∀ v, t ≠ ChangeVolume v) → settings (Retry.step t s) = settings s.
Proof.
  intros Hne. destruct t; try (by destruct (Hne v)); cbn [Retry.step];
    unfold Retry.toggleSound, Retry.playSound, Retry.stopSound, Retry.cleanup,
      Retry.startPlayback, Retry.handleError, Retry.playFulfilled,
      Retry.playRejected; cbv zeta; settings_frame.
Qed.

Lemma Simple_step_frame t s :
  (∀ v, t ≠ ChangeVolume v) →
  volume (Simple.step t s) = volume s ∧ volumeRef (Simple.step t s) = volumeRef s ∧
  localStorage (Simple.step t s) = localStorage s.
Proof.
  intros Hne. pose proof (Simple_step_settings t s Hne) as H.
  unfold settings in H. by simplify_eq.
Qed.

Lemma Retry_step_frame t s :
  (∀ v, t ≠ ChangeVolume v) →
  volume (Retry.step t s) = volume s ∧ volumeRef (Retry.step t s) = volumeRef s ∧
  localStorage (Retry.step t s) = localStorage s.
Proof.
  intros Hne. pose proof (Retry_step_settings t s Hne) as H.
  unfold settings in H. by simplify_eq.
Qed.

Lemma volumeRef_step t s :
  (∀ v, t ≠ ChangeVolume v) → volumeRef (step t s) = volumeRef s.
Proof.
  intros Hne. destruct (callback_target t) as [h'|] eqn:Ht.
  - destruct (callback_cases t h' s Ht)
      as [(f & Hf & ->) | [(a0 & _ & _ & _ & _ & ->) |
          [(a0 & k & _ & _ & _ & _ & ->) | (a0 & k & _ & _ & _ & _ & ->)]]];
      by destruct s.
  - destruct t; try discriminate Ht; cbn [step].
    + by rewrite playSound_eq.
    + by rewrite stopSound_eq.
    + unfold toggleSound.
      destruct (isPlaying s), (currentSound s); rewrite ?playSound_eq; try done.
      case String.eqb; by rewrite ?playSound_eq, ?stopSound_eq.
    + by destruct (Hne v).
    + by rewrite cleanup_eq.
Qed.

Lemma step_of_frame r t s :
  (∀ v, t ≠ ChangeVolume v) →
  volume (step_of r t s) = volume s ∧ volumeRef (step_of r t s) = volumeRef s ∧
  localStorage (step_of r t s) = localStorage s.
Proof.
  intros Hne. destruct r; simpl.
  - by apply Simple_step_frame.
  - by apply Retry_step_frame.
  - destruct (volume_step t s Hne) as [-> ->]. by rewrite volumeRef_step.
Qed.

Lemma step_of_ChangeVolume r v s : step_of r (ChangeVolume v) s = changeVolume v s.
Proof. by destruct r. Qed.

Lemma changeVolume_volume v s :
  volume (changeVolume v s) = v ∧ volumeRef (changeVolume v s) = v ∧
  localStorage (changeVolume v s) = <[volume_key := toString v]> (localStorage s).
Proof.
  rewrite changeVolume_cases. cbv zeta. destruct (audioRef s); by destruct s.
Qed.

Lemma not_ChangeVolume_dec t : (∃ v, t = ChangeVolume v) ∨ (∀ v, t ≠ ChangeVolume v).
Proof. destruct t; try (by right); left; by eexists. Qed.

(** In each revision and every reachable state [volumeRef] holds the
    value of [volume]: the effect that copies [volume] into the ref
    after a render never changes anything, since [changeVolume] has
    already written the ref. *)
Theorem volumeRef_in_sync r s :
  reachable_in r s → volumeRef s = volume s ∧ syncVolumeRef s = s.
Proof.
  intros (storage & ts & ->).
  assert (H : volumeRef (run_of r ts (useAmbientSounds storage)) =
              volume (run_of r ts (useAmbientSounds storage))).
  { assert (H0 : volumeRef (useAmbientSounds storage) = volume (useAmbientSounds storage))
      by done.
    revert H0. generalize (useAmbientSounds storage).
    induction ts as [|t ts IH]; intros s H0; [ done | ].
    change (run_of r (t :: ts) s) with (run_of r ts (step_of r t s)). apply IH.
    destruct (not_ChangeVolume_dec t) as [[v ->] | Hne].
    - rewrite step_of_ChangeVolume.
      by destruct (changeVolume_volume v s) as (-> & -> & _).
    - by destruct (step_of_frame r t s Hne) as (-> & -> & _). }
  split; [ done | ].
  unfold syncVolumeRef. rewrite <- H.
  by destruct (run_of r ts (useAmbientSounds storage)).
Qed.

Lemma volumeRef_in_sync_witness :
  let s :=
    run_of SecondRevision [ChangeVolume (Finite false [d7] 0); Play rain; PlayResolved 0]
      (useAmbientSounds ∅) in
  reachable_in SecondRevision s ∧ volumeRef s = Finite false [d7] 0 ∧
  syncVolumeRef s = s.
Proof.
  cbv zeta.
  set (s := run_of SecondRevision
              [ChangeVolume (Finite false [d7] 0); Play rain; PlayResolved 0]
              (useAmbientSounds ∅)).
  assert (R : reachable_in SecondRevision s) by (by eexists ∅, _).
  split; [ exact R | ]. split; [ by vm_compute | ].
  exact (proj2 (volumeRef_in_sync SecondRevision s R)).
Defined.

(** ** The store *)

Lemma last_volume_Some ts v :
  last_volume ts (Some v) =
  Some (default v (last_volume ts None)).
Proof.
  revert v. induction ts as [|t ts IH]; intros v; [ done | ].
  destruct t; simpl; try apply IH.
  rewrite (IH v0). by destruct (last_volume ts None).
Qed.

Lemma last_volume_elem ts v :
  last_volume ts None = Some v → ChangeVolume v ∈ ts.
Proof.
  induction ts as [|t ts IH]; [ done | ].
  destruct t; simpl; try (intros H; right; by apply IH).
  rewrite last_volume_Some. destruct (last_volume ts None) as [w|] eqn:E; simpl.
  - intros [= ->]. right. by apply IH.
  - intros [= ->]. left.
Qed.

Lemma run_of_settings r ts s :
  localStorage (run_of r ts s) =
    match last_volume ts None with
    | Some v => <[volume_key := toString v]> (localStorage s)
    | None => localStorage s
    end ∧
  volume (run_of r ts s) = default (volume s) (last_volume ts None).
Proof.
  revert s. induction ts as [|t ts IH]; intros s; [ done | ].
  change (run_of r (t :: ts) s) with (run_of r ts (step_of r t s)).
  destruct (IH (step_of r t s)) as [-> ->].
  destruct (not_ChangeVolume_dec t) as [[v ->] | Hne].
  - rewrite step_of_ChangeVolume. simpl. rewrite last_volume_Some.
    destruct (changeVolume_volume v s) as (-> & _ & ->).
    destruct (last_volume ts None); simpl; [ by rewrite insert_insert_eq | done ].
  - destruct (step_of_frame r t s Hne) as (-> & _ & ->).
    by destruct t; try done; destruct (Hne v).
Qed.

(** In each revision the hook writes the store under its own key only,
    and only in [changeVolume]: after any tasks the store is the
    initial one with the string of the last volume set under the key
    (unchanged when no volume was set), every other key is untouched,
    the key is never removed, and [volume] is the last volume set. *)
Theorem storage_only_volume_key r ts s :
  let s' := run_of r ts s in
  (localStorage s' =
     match last_volume ts None with
     | Some v => <[volume_key := toString v]> (localStorage s)
     | None => localStorage s
     end) ∧
  volume s' = default (volume s) (last_volume ts None) ∧
  (∀ k, k ≠ volume_key → localStorage s' !! k = localStorage s !! k) ∧
  (is_Some (localStorage s !! volume_key) → is_Some (localStorage s' !! volume_key)).
Proof.
  cbv zeta. destruct (run_of_settings r ts s) as [-> ->]. repeat split; try done.
  - intros k Hk. destruct (last_volume ts None); [ | done ].
    by rewrite lookup_insert_ne.
  - intros Hs. destruct (last_volume ts None); [ | done ].
    rewrite lookup_insert_eq. by eexists.
Qed.

Lemma initial_volume_insert v m :
  canonical v = true → initial_volume (<[volume_key := toString v]> m) = v.
Proof.
  intros Hc. unfold initial_volume. rewrite lookup_insert_eq.
  pose proof (parseFloat_toString v Hc) as Hrt.
  destruct (toString v) as [|c r]; [ | done ].
  rewrite <- Hrt in Hc. by vm_compute in Hc.
Qed.

(** In each revision, a session of any tasks in which the UI passes
    only volumes a volume string stands for ends with a store on which
    the next mount starts at the volume the session ended with. *)
Theorem volume_persists_across_sessions r storage ts :
  volume_tasks_canonical ts →
  let s := run_of r ts (useAmbientSounds storage) in
  volume (useAmbientSounds (localStorage s)) = volume s.
Proof.
  intros Hc s. unfold s.
  destruct (run_of_settings r ts (useAmbientSounds storage)) as [-> ->].
  cbn [useAmbientSounds volume localStorage].
  destruct (last_volume ts None) as [v|] eqn:E; [ | done ].
  simpl. apply initial_volume_insert, Hc. by apply last_volume_elem.
Qed.

Lemma volume_persists_across_sessions_witness :
  let ts :=
    [Play rain; ChangeVolume (Finite false [d7] 0); PlayResolved 0;
     ChangeVolume (Finite false [d1; d5] 0); Stop] in
  let s := run_of LastRevision ts (useAmbientSounds ∅) in
  volume_tasks_canonical ts ∧
  localStorage s !! volume_key = Some "0.15"%string ∧
  volume (useAmbientSounds (localStorage s)) = Finite false [d1; d5] 0.
Proof.
  cbv zeta.
  assert (Hc : volume_tasks_canonical
    [Play rain; ChangeVolume (Finite false [d7] 0); PlayResolved 0;
     ChangeVolume (Finite false [d1; d5] 0); Stop]).
  { intros v. rewrite !elem_of_cons, elem_of_nil.
    intros [[=] | [[= ->] | [[=] | [[= ->] | [[=] | []]]]]]; done. }
  split; [ exact Hc | ]. split; [ by vm_compute | ].
  rewrite (volume_persists_across_sessions LastRevision ∅ _ Hc). by vm_compute.
Defined.
